(** * okpos shop: nested product serializer

    A shallow embedding of [apps/shop/serializers.py] and
    [apps/shop/views.py]: the option name validator, the manual tag
    reconciliation of [ProductSerializer] and the create / update / destroy
    paths of [ProductViewSet], over an explicit relational store. The
    serializer methods work on data whose tag entries are in internal form;
    [Http] puts in front of them what the declared fields of
    [TagSerializer] make of the entries a client submits.

    Python exceptions are outcomes of type [exn + A]; code that talks to the
    database is a function [Store -> Store * (exn + A)], so that the rows
    written before an exception was raised stay visible in the store that
    comes with the exception. *)

From stdpp Require Import gmap list.
From Stdlib Require Import String Ascii.

Local Open Scope Z_scope.
Set Warnings "-clear-no-such-hyp".

(** ** Python strings *)

(** A Python [str] is a sequence of code points. *)
Abbreviation pystr := (list N).

(** ASCII literals, for examples. *)
Definition str (s : string) : pystr :=
  N_of_ascii <$> list_ascii_of_string s.

(** [str.isspace] on one code point: the white space table of CPython. *)
Definition py_isspace (c : N) : bool :=
  ((9 <=? c) && (c <=? 13) || (28 <=? c) && (c <=? 32)
   || (c =? 133) || (c =? 160) || (c =? 5760)
   || (8192 <=? c) && (c <=? 8202)
   || (c =? 8232) || (c =? 8233) || (c =? 8239) || (c =? 8287)
   || (c =? 12288))%N.

Fixpoint lstrip (s : pystr) : pystr :=
  match s with
  | [] => []
  | c :: s' => if py_isspace c then lstrip s' else s
  end.

Definition rstrip (s : pystr) : pystr := reverse (lstrip (reverse s)).

(** [value.strip()] *)
Definition strip (s : pystr) : pystr := rstrip (lstrip s).

(** Truth value of a [str]: the empty string is false. *)
Definition str_truthy (s : pystr) : bool :=
  match s with [] => false | _ => true end.

(** ** Exceptions *)

Inductive message :=
  | OptionNameRequired            (* the text raised by validate_name *)
  | TagDoesNotExist (pk : Z).     (* the f-string of _process_tags, with its pk *)

(** [ValidationError path m]: [path] is the nesting of field keys under which
    the message is reported ([] for a bare message). *)
Inductive exn :=
  | ValidationError (path : list string) (m : message)
  | MultipleObjectsReturned
  | Http404.

Global Instance message_eq_dec : EqDecision message.
Proof. solve_decision. Defined.
Global Instance exn_eq_dec : EqDecision exn.
Proof. solve_decision. Defined.

(** ** The entity store *)

Record Tag := { tag_pk : Z; tag_name : pystr }.
Record Product := { product_pk : Z; product_name : pystr }.
Record ProductOption := {
  option_pk : Z;
  option_product : Z;
  option_name : pystr;
  option_price : Z
}.

Global Instance Tag_eq_dec : EqDecision Tag.
Proof. solve_decision. Defined.
Global Instance Product_eq_dec : EqDecision Product.
Proof. solve_decision. Defined.
Global Instance ProductOption_eq_dec : EqDecision ProductOption.
Proof. solve_decision. Defined.

(** Modelled from the spec: [models.py] (Tag, Product, ProductOption and the
    Product-Tag association) is not among the sources. The tables follow the
    data model of the specification: rows in insertion order, a name column
    on Tag that is not unique, options owned by one product, and a
    many-to-many link kept as the set of tag keys of each product. *)
Record Store := {
  tags : list Tag;
  products : list Product;
  options : list ProductOption;
  product_tags : gmap Z (gset Z)
}.

Definition set_tags (ts : list Tag) (st : Store) : Store :=
  {| tags := ts; products := products st;
     options := options st; product_tags := product_tags st |}.
Definition set_products (ps : list Product) (st : Store) : Store :=
  {| tags := tags st; products := ps;
     options := options st; product_tags := product_tags st |}.
Definition set_options (os : list ProductOption) (st : Store) : Store :=
  {| tags := tags st; products := products st;
     options := os; product_tags := product_tags st |}.
Definition set_product_tags (m : gmap Z (gset Z)) (st : Store) : Store :=
  {| tags := tags st; products := products st;
     options := options st; product_tags := m |}.

(** The primary key the database gives to a new row: a key that no row of the
    table has, here one more than the largest. *)
Definition fresh_pk (pks : list Z) : Z := 1 + foldr Z.max 0 pks.

(** The tags linked to a product, [product.tag_set.all()], by key. *)
Definition tag_set_of (st : Store) (p : Z) : gset Z :=
  default ∅ (product_tags st !! p).

(** Database operations used by the serializer. *)
Module TagObjects.

(** [Tag.objects.get(pk=pk)]; [None] stands for [Tag.DoesNotExist]. *)
Definition get (st : Store) (pk : Z) : option Tag :=
  head (filter (λ t, tag_pk t = pk) (tags st)).

(** [Tag.objects.create(name=name)] *)
Definition create (st : Store) (name : pystr) : Store * Tag :=
  let t := {| tag_pk := fresh_pk (tag_pk <$> tags st); tag_name := name |} in
  (set_tags (tags st ++ [t]) st, t).

(** [Tag.objects.get_or_create(name=name)]: the lookup is a [get], which
    raises when several rows bear the name. *)
Definition get_or_create (st : Store) (name : pystr) : Store * (exn + Tag) :=
  match filter (λ t, tag_name t = name) (tags st) with
  | [] => let '(st', t) := create st name in (st', inr t)
  | [t] => (st, inr t)
  | _ => (st, inl MultipleObjectsReturned)
  end.

End TagObjects.

(** [product.tag_set.set(tag_instances)]: the product is linked to exactly
    the given tags afterwards. *)
Definition tag_set_set (p : Z) (tag_instances : list Tag) (st : Store) : Store :=
  set_product_tags
    (<[p := list_to_set (tag_pk <$> tag_instances)]> (product_tags st)) st.

(** ** Submitted data *)

(** An entry of [tag_set] as [_process_tags] reads it: a dictionary that may
    have a ['pk'] and may have a ['name']. The empty dictionary has neither. *)
Record TagData := { td_pk : option Z; td_name : option pystr }.

(** An entry of [option_set]. *)
Record OptionSpec := { os_pk : option Z; os_name : pystr; os_price : Z }.

(** The data of a product: [name], and the nested lists, each of which may be
    left out ([required=False]). *)
Record ProductData := {
  pd_name : option pystr;
  pd_option_set : option (list OptionSpec);
  pd_tag_set : option (list TagData)
}.

Global Instance TagData_eq_dec : EqDecision TagData.
Proof. solve_decision. Defined.
Global Instance OptionSpec_eq_dec : EqDecision OptionSpec.
Proof. solve_decision. Defined.

(** ** ProductOptionSerializer *)

Module ProductOptionSerializer.

(** [validate_name]: rejects a name that is empty or blank, returns the
    stripped name otherwise. *)
Definition validate_name (value : pystr) : exn + pystr :=
  if negb (str_truthy value) || negb (str_truthy (strip value))
  then inl (ValidationError [] OptionNameRequired)
  else inr (strip value).

(** Validation of one entry: the [validate_name] hook runs on its name and
    its error is reported under the field [name]. *)
Definition run_validation (s : OptionSpec) : exn + OptionSpec :=
  match validate_name (os_name s) with
  | inl (ValidationError path m) => inl (ValidationError ("name"%string :: path) m)
  | inl e => inl e
  | inr name =>
      inr {| os_pk := os_pk s; os_name := name; os_price := os_price s |}
  end.

(** [many=True]: every entry is validated, in order. *)
Fixpoint run_validation_many (l : list OptionSpec) : exn + list OptionSpec :=
  match l with
  | [] => inr []
  | s :: l' =>
      match run_validation s with
      | inl e => inl e
      | inr s' =>
          match run_validation_many l' with
          | inl e => inl e
          | inr l'' => inr (s' :: l'')
          end
      end
  end.

End ProductOptionSerializer.

(** ** The nested writes of the base serializer *)

(** [create] and [update] of [ProductSerializer] call the base class
    [WritableNestedModelSerializer] through [super()]. That class belongs to
    a library and its code is not among the sources, so the three entry
    points below are written after the specification. The tag list never
    reaches them: the serializer pops it first. *)
Module Nested.

Definition owned_by (p : Z) (o : ProductOption) : Prop := option_product o = p.

Global Instance owned_by_dec p o : Decision (owned_by p o).
Proof. unfold owned_by. apply _. Defined.

Definition new_option (p : Z) (s : OptionSpec) (st : Store) : Store :=
  set_options
    (options st ++
     [{| option_pk := fresh_pk (option_pk <$> options st);
         option_product := p;
         option_name := os_name s;
         option_price := os_price s |}]) st.

Definition change_option (p k : Z) (s : OptionSpec) (st : Store) : Store :=
  set_options
    ((λ o, if decide (option_pk o = k ∧ owned_by p o)
           then {| option_pk := k; option_product := p;
                   option_name := os_name s; option_price := os_price s |}
           else o) <$> options st) st.

(** One submitted entry; [old] are the keys of the options the product
    owned when the request came in. *)
Definition save_option (p : Z) (old : list Z) (st : Store) (s : OptionSpec)
  : Store :=
  match os_pk s with
  | Some k => if decide (k ∈ old) then change_option p k s st
              else new_option p s st
  | None => new_option p s st
  end.

Definition owned_pks (p : Z) (st : Store) : list Z :=
  option_pk <$> filter (owned_by p) (options st).

Definition submitted_pks (specs : list OptionSpec) : list Z :=
  omap os_pk specs.

(** An option is deleted when the product owned it before the request and
    its key is absent from the submitted list. *)
Definition left_out (p : Z) (old submitted : list Z) (o : ProductOption)
  : Prop :=
  owned_by p o ∧ option_pk o ∈ old ∧ option_pk o ∉ submitted.

Global Instance left_out_dec p old submitted o
  : Decision (left_out p old submitted o).
Proof. unfold left_out. apply _. Defined.

(** Modelled from the spec: the Option Reconciler, which stands for the
    nested update of the library. An entry whose key matches an option of the
    product changes it in place, any other entry makes a new option of the
    product; then the options the product had whose key is absent from the
    submitted list are deleted. *)
Definition reconcile_options (p : Z) (specs : list OptionSpec) (st : Store)
  : Store :=
  let old := owned_pks p st in
  let st1 := foldl (save_option p old) st specs in
  set_options
    (filter (λ o, ¬ left_out p old (submitted_pks specs) o) (options st1))
    st1.

(** Modelled from the spec: [super().create(validated_data)], the tag list
    already popped. One Product row is written, then every submitted option
    as a new option of that product. A missing [name] is stored as the empty
    string. *)
Definition create (st : Store) (d : ProductData) : Store * Product :=
  let product := {| product_pk := fresh_pk (product_pk <$> products st);
                    product_name := default [] (pd_name d) |} in
  let st1 := set_products (products st ++ [product]) st in
  (foldl (λ s o, new_option (product_pk product) o s) st1
         (default [] (pd_option_set d)),
   product).

(** Modelled from the spec: [super().update(instance, validated_data)], the
    tag list already popped. Only the submitted fields change: the name when
    there is one, the options, through the reconciler, when there is an
    [option_set]. *)
Definition update (st : Store) (instance : Product) (d : ProductData)
  : Store * Product :=
  let product :=
    {| product_pk := product_pk instance;
       product_name := default (product_name instance) (pd_name d) |} in
  let st1 :=
    set_products
      ((λ r, if decide (product_pk r = product_pk instance)
             then product else r) <$> products st) st in
  (match pd_option_set d with
   | Some specs => reconcile_options (product_pk instance) specs st1
   | None => st1
   end,
   product).

End Nested.

(** ** ProductSerializer *)

Module ProductSerializer.

(** ['pk' in tag_data and tag_data['pk']]: the key is there and its value
    is true, which for an integer means it is not zero. *)
Definition given_pk (tag_data : TagData) : option Z :=
  match td_pk tag_data with
  | Some pk => if decide (pk = 0) then None else Some pk
  | None => None
  end.

(** The loop of [_process_tags], with its two accumulators. An entry
    without a ['name'] (the empty dictionary is one) is passed over, and so
    is an entry whose name is in [processed_tag_names]. *)
Fixpoint process_loop (tags_data : list TagData)
    (tag_instances : list Tag) (processed_tag_names : gset pystr)
    (st : Store) : Store * (exn + list Tag) :=
  match tags_data with
  | [] => (st, inr tag_instances)
  | tag_data :: rest =>
      match td_name tag_data with
      | None => process_loop rest tag_instances processed_tag_names st
      | Some tag_name =>
          if decide (tag_name ∈ processed_tag_names)
          then process_loop rest tag_instances processed_tag_names st
          else
            match given_pk tag_data with
            | Some pk =>
                match TagObjects.get st pk with
                | Some tag =>
                    process_loop rest (tag_instances ++ [tag])
                      ({[tag_name]} ∪ processed_tag_names) st
                | None =>
                    (st, inl (ValidationError ["tag_set"%string]
                                (TagDoesNotExist pk)))
                end
            | None =>
                match TagObjects.get_or_create st tag_name with
                | (st', inr tag) =>
                    process_loop rest (tag_instances ++ [tag])
                      ({[tag_name]} ∪ processed_tag_names) st'
                | (st', inl e) => (st', inl e)
                end
            end
      end
  end.

(** [_process_tags(product, tags_data)] *)
Definition _process_tags (st : Store) (product : Product)
    (tags_data : list TagData) : Store * (exn + unit) :=
  match process_loop tags_data [] ∅ st with
  | (st', inr tag_instances) =>
      (tag_set_set (product_pk product) tag_instances st', inr ())
  | (st', inl e) => (st', inl e)
  end.

Definition without_tags (d : ProductData) : ProductData :=
  {| pd_name := pd_name d; pd_option_set := pd_option_set d;
     pd_tag_set := None |}.

(** [create(validated_data)] *)
Definition create (st : Store) (validated_data : ProductData)
  : Store * (exn + Product) :=
  let tags_data := default [] (pd_tag_set validated_data) in
  let '(st1, product) := Nested.create st (without_tags validated_data) in
  match _process_tags st1 product tags_data with
  | (st2, inr _) => (st2, inr product)
  | (st2, inl e) => (st2, inl e)
  end.

(** [update(instance, validated_data)] *)
Definition update (st : Store) (instance : Product)
    (validated_data : ProductData) : Store * (exn + Product) :=
  let tags_data := pd_tag_set validated_data in
  let '(st1, product) :=
    Nested.update st instance (without_tags validated_data) in
  match tags_data with
  | Some tags_data =>
      match _process_tags st1 product tags_data with
      | (st2, inr _) => (st2, inr product)
      | (st2, inl e) => (st2, inl e)
      end
  | None => (st1, inr product)
  end.

(** Validation of the data, as far as the methods of the serializers define
    it: every entry of [option_set] goes through [ProductOptionSerializer],
    whose errors are reported under the field [option_set]; the entries of
    [tag_set] are handed on as they are, in the internal form that
    [TagSerializer.to_internal_value] has given them. *)
Definition run_validation (data : ProductData) : exn + ProductData :=
  match pd_option_set data with
  | None => inr data
  | Some specs =>
      match ProductOptionSerializer.run_validation_many specs with
      | inl (ValidationError path m) =>
          inl (ValidationError ("option_set"%string :: path) m)
      | inl e => inl e
      | inr specs' =>
          inr {| pd_name := pd_name data; pd_option_set := Some specs';
                 pd_tag_set := pd_tag_set data |}
      end
  end.

End ProductSerializer.

(** ** ProductViewSet *)

Module ProductViewSet.

(** [get_object()]: the product with that key, or 404. *)
Definition get_object (st : Store) (pk : Z) : option Product :=
  head (filter (λ r, product_pk r = pk) (products st)).

(** [create]: validate, then save through [ProductSerializer.create]. The
    tag entries of [data] are in internal form; [Http.post] is the request
    with the entries as the client submits them. *)
Definition create (st : Store) (data : ProductData)
  : Store * (exn + Product) :=
  match ProductSerializer.run_validation data with
  | inl e => (st, inl e)
  | inr validated_data => ProductSerializer.create st validated_data
  end.

(** [partial_update]: fetch, validate, then save through
    [ProductSerializer.update]. The tag entries of [data] are in internal
    form; [Http.patch] is the request as the client submits it. *)
Definition partial_update (st : Store) (pk : Z) (data : ProductData)
  : Store * (exn + Product) :=
  match get_object st pk with
  | None => (st, inl Http404)
  | Some instance =>
      match ProductSerializer.run_validation data with
      | inl e => (st, inl e)
      | inr validated_data =>
          ProductSerializer.update st instance validated_data
      end
  end.

(** Modelled from the spec: [destroy] calls the framework's delete, whose
    cascade is fixed by [models.py], which is not among the sources. The
    product row goes, the options it owns go with it, its tag links go, and
    the Tag table is left as it is. *)
Definition destroy (st : Store) (pk : Z) : Store * (exn + unit) :=
  match get_object st pk with
  | None => (st, inl Http404)
  | Some instance =>
      ({| tags := tags st;
          products := filter (λ r, product_pk r ≠ pk) (products st);
          options := filter (λ o, ¬ Nested.owned_by pk o) (options st);
          product_tags := delete pk (product_tags st) |},
       inr ())
  end.

End ProductViewSet.

(** ** What a client submits *)

(** The framework reads the declared fields of a serializer from the
    submitted body before [create] or [update] run, and refuses the body when
    a field that is wanted is missing or blank. The first refusal is
    reported, under the path of its field. *)
Inductive refusal :=
  | Required (path : list string)
  | Blank (path : list string).

Global Instance refusal_eq_dec : EqDecision refusal.
Proof. solve_decision. Defined.

Module TagSerializer.

(** [fields = ['pk', 'name']], [read_only_fields = ['pk']]: a read-only field
    is written to the output and is not read from the input, so the internal
    form of an entry has no ['pk'], whatever the client sent. [name] is a
    character field of the Tag model: it is wanted, it is stripped, and a
    blank name is refused. *)
Definition to_internal_value (entry : TagData) : refusal + TagData :=
  match td_name entry with
  | None => inl (Required ["tag_set"; "name"]%string)
  | Some name =>
      if decide (strip name = []) then inl (Blank ["tag_set"; "name"]%string)
      else inr {| td_pk := None; td_name := Some (strip name) |}
  end.

(** [many=True]: every entry, in order. *)
Fixpoint run_validation_many (l : list TagData) : refusal + list TagData :=
  match l with
  | [] => inr []
  | entry :: l' =>
      match to_internal_value entry with
      | inl r => inl r
      | inr entry' =>
          match run_validation_many l' with
          | inl r => inl r
          | inr l'' => inr (entry' :: l'')
          end
      end
  end.

End TagSerializer.

Module Http.

(** The [name] of the product, a character field of the Product model:
    stripped, refused when blank, and wanted unless the update is partial. *)
Definition name_field (partial : bool) (name : option pystr)
  : refusal + option pystr :=
  match name with
  | None => if partial then inr None else inl (Required ["name"%string])
  | Some n =>
      if decide (strip n = []) then inl (Blank ["name"%string])
      else inr (Some (strip n))
  end.

(** The body of a request, read field by field. The entries of [option_set]
    are left to [ProductSerializer.run_validation]. *)
Definition to_internal_value (partial : bool) (body : ProductData)
  : refusal + ProductData :=
  match name_field partial (pd_name body) with
  | inl r => inl r
  | inr name =>
      match pd_tag_set body with
      | None =>
          inr {| pd_name := name; pd_option_set := pd_option_set body;
                 pd_tag_set := None |}
      | Some entries =>
          match TagSerializer.run_validation_many entries with
          | inl r => inl r
          | inr entries' =>
              inr {| pd_name := name; pd_option_set := pd_option_set body;
                     pd_tag_set := Some entries' |}
          end
      end
  end.

(** [POST /products]: a refused body writes nothing. *)
Definition post (st : Store) (body : ProductData)
  : refusal + Store * (exn + Product) :=
  match to_internal_value false body with
  | inl r => inl r
  | inr data => inr (ProductViewSet.create st data)
  end.

(** [PATCH /products/{pk}]: the product is fetched first. *)
Definition patch (st : Store) (pk : Z) (body : ProductData)
  : refusal + Store * (exn + Product) :=
  match ProductViewSet.get_object st pk with
  | None => inr (st, inl Http404)
  | Some _ =>
      match to_internal_value true body with
      | inl r => inl r
      | inr data => inr (ProductViewSet.partial_update st pk data)
      end
  end.

End Http.

(** ** Auxiliary definitions for the statements *)

(** An option entry as validation hands it on, and an entry whose name is
    empty once stripped. *)
Definition trimmed (s : OptionSpec) : OptionSpec :=
  {| os_pk := os_pk s; os_name := strip (os_name s); os_price := os_price s |}.

Definition blank (s : OptionSpec) : Prop := strip (os_name s) = [].

Definition option_row (p : Z) (s : OptionSpec) (k : Z) : ProductOption :=
  {| option_pk := k; option_product := p;
     option_name := os_name s; option_price := os_price s |}.

Definition row_data (o : ProductOption) : Z * pystr * Z :=
  (option_product o, option_name o, option_price o).

Definition spec_data (p : Z) (s : OptionSpec) : Z * pystr * Z :=
  (p, os_name s, os_price s).

(** The names borne by the entries of a list. *)
Definition names_of (l : list TagData) : gset pystr :=
  list_to_set (omap td_name l).

(** The entries that the specification keeps: those that bear a name, and of
    those that bear the same name the first one only. [seen] are the names
    already met. *)
Fixpoint first_by_name (seen : gset pystr) (l : list TagData) : list TagData :=
  match l with
  | [] => []
  | tag_data :: rest =>
      match td_name tag_data with
      | None => first_by_name seen rest
      | Some n =>
          if decide (n ∈ seen) then first_by_name seen rest
          else tag_data :: first_by_name ({[n]} ∪ seen) rest
      end
  end.

(** The rows of the Tag table that bear a name. *)
Definition named (n : pystr) (ts : list Tag) : list Tag :=
  filter (λ t, tag_name t = n) ts.

(** From [c] rows to [c'] rows: none added, or one added where there was
    none. *)
Definition at_most_one_new (c c' : nat) : Prop :=
  c' = c ∨ (c = 0%nat ∧ c' = 1%nat).

(** The last submitted entry that bears the key [k]. *)
Definition last_with_pk (k : Z) (specs : list OptionSpec) : option OptionSpec :=
  last (filter (λ s, os_pk s = Some k) specs).

(** The full-replacement diff of the specification, seen from one stored
    option: an option of another product is kept as it is; an option of the
    product is rewritten with the name and price of the entry that bears its
    key, and is deleted when no entry does. *)
Definition diff_row (p : Z) (specs : list OptionSpec) (o : ProductOption)
  : option ProductOption :=
  if decide (Nested.owned_by p o)
  then (λ s, option_row p s (option_pk o))
         <$> last_with_pk (option_pk o) specs
  else Some o.

(** An entry that makes a new option: it has no key, or its key is not the
    key of an option of the product. *)
Definition unmatched (old : list Z) (s : OptionSpec) : Prop :=
  match os_pk s with Some k => k ∉ old | None => True end.

Global Instance unmatched_dec old s : Decision (unmatched old s).
Proof. unfold unmatched. destruct (os_pk s); apply _. Defined.

(** The table after the entries [specs] were saved and before anything is
    deleted, seen from one stored option. *)
Definition changed (p : Z) (old : list Z) (specs : list OptionSpec)
    (o : ProductOption) : ProductOption :=
  if decide (Nested.owned_by p o ∧ option_pk o ∈ old)
  then match last_with_pk (option_pk o) specs with
       | Some s => option_row p s (option_pk o)
       | None => o
       end
  else o.

(** A string made of white space only; the empty string is one. *)
Definition whitespace (s : pystr) : Prop :=
  Forall (λ c, py_isspace c = true) s.

(** ** Stores and requests used as concrete inputs *)

Module Ex.

Definition ExistTag : Tag := {| tag_pk := 1; tag_name := str "ExistTag" |}.
Definition AnotherExistTag : Tag :=
  {| tag_pk := 2; tag_name := str "AnotherExistTag" |}.

(** The two tags every test case starts from. *)
Definition base : Store :=
  {| tags := [ExistTag; AnotherExistTag]; products := [];
     options := []; product_tags := ∅ |}.

Definition TestProduct : Product :=
  {| product_pk := 1; product_name := str "TestProduct" |}.

(** The product of the update tests: three options, two tags. *)
Definition stocked : Store :=
  {| tags := [ExistTag; AnotherExistTag;
              {| tag_pk := 3; tag_name := str "NewTag" |}];
     products := [TestProduct];
     options :=
       [{| option_pk := 1; option_product := 1;
           option_name := str "TestOption1"; option_price := 1000 |};
        {| option_pk := 2; option_product := 1;
           option_name := str "TestOption2"; option_price := 500 |};
        {| option_pk := 3; option_product := 1;
           option_name := str "TestOption3"; option_price := 0 |}];
     product_tags := {[ 1 := {[ 1; 3 ]} ]} |}.

Definition by_name (n : string) : TagData :=
  {| td_pk := None; td_name := Some (str n) |}.
Definition by_pk (k : Z) (n : string) : TagData :=
  {| td_pk := Some k; td_name := Some (str n) |}.
Definition opt (n : string) (price : Z) : OptionSpec :=
  {| os_pk := None; os_name := str n; os_price := price |}.

(** The option list of the update test: the first option as it is, the
    second one edited, the third one left out, one new option. *)
Definition complex_options : list OptionSpec :=
  [{| os_pk := Some 1; os_name := str "TestOption1"; os_price := 1000 |};
   {| os_pk := Some 2; os_name := str "Edit TestOption2";
      os_price := 1500 |};
   opt "Edit New Option" 300].

Definition complex_update : ProductData :=
  {| pd_name := Some (str "TestProduct");
     pd_option_set := Some complex_options; pd_tag_set := None |}.

End Ex.

(** * Properties *)

(** Side conditions on concrete inputs: a value that is in none of the
    positions of an explicit list, a value that is not in an explicit set. *)
Ltac list_absent :=
  vm_compute; let H := fresh "H" in intros H;
  repeat (let H' := fresh "H" in
          inversion H as [|? ? ? H']; clear H; rename H' into H).

Ltac set_absent :=
  vm_compute; let H := fresh "H" in intros H; discriminate H.

(** ** Strings and keys *)

Lemma validate_name_eq (value : pystr) :
  ProductOptionSerializer.validate_name value =
  if decide (strip value = [])
  then inl (ValidationError [] OptionNameRequired)
  else inr (strip value).
Proof.
  unfold ProductOptionSerializer.validate_name.
  destruct value as [|c value]; [reflexivity|]. cbn [str_truthy negb orb].
  destruct (decide (strip (c :: value) = [])) as [->|Hne]; [reflexivity|].
  destruct (strip (c :: value)); [congruence|reflexivity].
Qed.

Lemma fresh_pk_above (pks : list Z) (k : Z) : k ∈ pks → k < fresh_pk pks.
Proof.
  unfold fresh_pk. induction 1 as [k pks|k k' pks _ IH]; simpl; lia.
Qed.

Lemma fresh_pk_fresh (pks : list Z) : fresh_pk pks ∉ pks.
Proof. intros H%fresh_pk_above. lia. Qed.

(** ** Option validation *)

Lemma run_validation_option (s : OptionSpec) :
  ProductOptionSerializer.run_validation s =
  if decide (blank s)
  then inl (ValidationError ["name"%string] OptionNameRequired)
  else inr (trimmed s).
Proof.
  unfold ProductOptionSerializer.run_validation, blank.
  rewrite validate_name_eq. by destruct (decide _).
Qed.

Lemma run_validation_many_ok (specs : list OptionSpec) :
  Forall (λ s, ¬ blank s) specs →
  ProductOptionSerializer.run_validation_many specs = inr (trimmed <$> specs).
Proof.
  induction 1 as [|s specs Hs _ IH]; [reflexivity|]. simpl.
  rewrite run_validation_option, decide_False, IH; done.
Qed.

Lemma run_validation_many_blank (specs : list OptionSpec) :
  Exists blank specs →
  ProductOptionSerializer.run_validation_many specs =
  inl (ValidationError ["name"%string] OptionNameRequired).
Proof.
  induction specs as [|s specs IH]; intros Hex; [by apply Exists_nil in Hex|].
  simpl. rewrite run_validation_option.
  destruct (decide (blank s)) as [|Hs]; [reflexivity|].
  apply Exists_cons in Hex as [?|Hex]; [done|]. by rewrite (IH Hex).
Qed.

Lemma serializer_validation_ok (data : ProductData) (specs : list OptionSpec) :
  pd_option_set data = Some specs →
  Forall (λ s, ¬ blank s) specs →
  ProductSerializer.run_validation data =
  inr {| pd_name := pd_name data; pd_option_set := Some (trimmed <$> specs);
         pd_tag_set := pd_tag_set data |}.
Proof.
  intros Hd Hok. unfold ProductSerializer.run_validation.
  by rewrite Hd, run_validation_many_ok.
Qed.

Lemma serializer_validation_blank (data : ProductData) (specs : list OptionSpec) :
  pd_option_set data = Some specs →
  Exists blank specs →
  ProductSerializer.run_validation data =
  inl (ValidationError ["option_set"; "name"]%string OptionNameRequired).
Proof.
  intros Hd Hex. unfold ProductSerializer.run_validation.
  by rewrite Hd, run_validation_many_blank.
Qed.

(** Every validation error of a product is an option error, and leaves the
    name and the tag list as they were submitted. *)
Lemma serializer_validation_inv (data : ProductData) :
  match ProductSerializer.run_validation data with
  | inl e => ∃ specs, pd_option_set data = Some specs ∧ Exists blank specs ∧
      e = ValidationError ["option_set"; "name"]%string OptionNameRequired
  | inr d => pd_name d = pd_name data ∧ pd_tag_set d = pd_tag_set data ∧
      pd_option_set d = fmap (M:=option) (fmap (M:=list) trimmed) (pd_option_set data)
  end.
Proof.
  destruct (pd_option_set data) as [specs|] eqn:Hd.
  - destruct (decide (Exists blank specs)) as [Hex|Hok].
    + rewrite (serializer_validation_blank _ _ Hd Hex). eauto.
    + apply not_Exists_Forall in Hok; [|intros ?; apply _].
      by rewrite (serializer_validation_ok _ _ Hd Hok).
  - unfold ProductSerializer.run_validation. by rewrite Hd.
Qed.

(** ** Frame properties of the tag loop *)

Section tag_loop.
Import ProductSerializer.

Lemma get_or_create_frame st name st' r :
  TagObjects.get_or_create st name = (st', r) →
  products st' = products st ∧ options st' = options st ∧
  product_tags st' = product_tags st ∧
  ∃ new, tags st' = tags st ++ new.
Proof.
  unfold TagObjects.get_or_create, TagObjects.create.
  destruct (filter _ _) as [|t [|??]]; intros [= <- <-]; simpl;
    repeat split; eauto using app_nil_r.
Qed.

Lemma process_loop_frame tags_data :
  ∀ insts seen st st' r,
  process_loop tags_data insts seen st = (st', r) →
  products st' = products st ∧ options st' = options st ∧
  product_tags st' = product_tags st ∧
  ∃ new, tags st' = tags st ++ new.
Proof.
  induction tags_data as [|td rest IH]; intros insts seen st st' r; simpl.
  { intros [= <- <-]. repeat split. exists []. by rewrite app_nil_r. }
  destruct (td_name td) as [n|]; [|by apply IH].
  destruct (decide (n ∈ seen)); [by apply IH|].
  destruct (given_pk td) as [pk|].
  - destruct (TagObjects.get st pk); [by apply IH|].
    intros [= <- <-]. repeat split. exists []. by rewrite app_nil_r.
  - destruct (TagObjects.get_or_create st n) as [st1 [e|t]] eqn:Hg.
    + apply get_or_create_frame in Hg. by intros [= <- <-].
    + apply get_or_create_frame in Hg as (Hp & Ho & Hm & new1 & Ht).
      intros (Hp' & Ho' & Hm' & new2 & Ht')%IH.
      rewrite Hp', Ho', Hm', Ht', Ht. split_and!; [done..|].
      exists (new1 ++ new2). by rewrite app_assoc.
Qed.

End tag_loop.

Lemma process_tags_frame st product tags_data st' r :
  ProductSerializer._process_tags st product tags_data = (st', r) →
  products st' = products st ∧ options st' = options st ∧
  ∃ new, tags st' = tags st ++ new.
Proof.
  unfold ProductSerializer._process_tags.
  destruct (ProductSerializer.process_loop _ _ _ _) as [st1 [e|insts]] eqn:Hl;
    apply process_loop_frame in Hl as (? & ? & ? & ?); by intros [= <- <-].
Qed.

(** ** Frame properties of the nested writes *)

Lemma new_options_rows (p : Z) (specs : list OptionSpec) :
  ∀ st, ∃ rows,
    options (foldl (λ s o, Nested.new_option p o s) st specs)
      = options st ++ rows ∧
    row_data <$> rows = spec_data p <$> specs ∧
    tags (foldl (λ s o, Nested.new_option p o s) st specs) = tags st ∧
    products (foldl (λ s o, Nested.new_option p o s) st specs) = products st ∧
    product_tags (foldl (λ s o, Nested.new_option p o s) st specs)
      = product_tags st.
Proof.
  induction specs as [|s specs IH]; intros st; simpl.
  { exists []. by rewrite app_nil_r. }
  destruct (IH (Nested.new_option p s st)) as (rows & -> & Hrows & -> & -> & ->).
  eexists (_ :: rows). simpl. rewrite <- app_assoc. simpl.
  split_and!; [reflexivity| |done..]. f_equal. exact Hrows.
Qed.

Lemma nested_create_frame st d st' product :
  Nested.create st d = (st', product) →
  tags st' = tags st ∧ product_tags st' = product_tags st ∧
  products st' = products st ++ [product] ∧
  product_pk product = fresh_pk (product_pk <$> products st) ∧
  ∃ rows, options st' = options st ++ rows ∧
    row_data <$> rows
      = spec_data (product_pk product) <$> default [] (pd_option_set d).
Proof.
  unfold Nested.create. intros [= <- <-]. simpl.
  match goal with |- context [foldl _ ?s ?l] =>
    destruct (new_options_rows (fresh_pk (product_pk <$> products st)) l s)
      as (rows & -> & Hrows & -> & -> & ->) end.
  simpl. eauto 10.
Qed.

Lemma save_option_frame p old st s :
  tags (Nested.save_option p old st s) = tags st ∧
  products (Nested.save_option p old st s) = products st ∧
  product_tags (Nested.save_option p old st s) = product_tags st.
Proof.
  unfold Nested.save_option.
  destruct (os_pk s) as [k|]; [destruct (decide _)|]; done.
Qed.

Lemma reconcile_options_frame p specs st :
  tags (Nested.reconcile_options p specs st) = tags st ∧
  products (Nested.reconcile_options p specs st) = products st ∧
  product_tags (Nested.reconcile_options p specs st) = product_tags st.
Proof.
  unfold Nested.reconcile_options. simpl.
  generalize (Nested.owned_pks p st). intros old. revert st.
  induction specs as [|s specs IH]; intros st; simpl; [done|].
  destruct (IH (Nested.save_option p old st s)) as (-> & -> & ->).
  apply save_option_frame.
Qed.

Lemma nested_update_frame st instance d st' product :
  Nested.update st instance d = (st', product) →
  tags st' = tags st ∧ product_tags st' = product_tags st ∧
  (pd_option_set d = None → options st' = options st).
Proof.
  unfold Nested.update. intros [= <- <-].
  destruct (pd_option_set d) as [specs|]; [|done].
  match goal with |- context [Nested.reconcile_options ?p ?l ?s] =>
    destruct (reconcile_options_frame p l s) as (Ht & _ & Hm) end.
  by rewrite Ht, Hm.
Qed.


Lemma serializer_update_options st instance validated_data :
  pd_option_set validated_data = None →
  options (ProductSerializer.update st instance validated_data).1 = options st.
Proof.
  intros Hd. unfold ProductSerializer.update.
  destruct (Nested.update st instance _) as [st1 product] eqn:Hu.
  apply nested_update_frame in Hu as (_ & _ & Hos). rewrite <- Hos by done.
  destruct (pd_tag_set validated_data) as [tags_data|]; [|done].
  destruct (ProductSerializer._process_tags st1 product _) as [st2 r] eqn:Hp.
  apply process_tags_frame in Hp as (_ & <- & _). by destruct r.
Qed.

(** ** Option names *)



(** ** Omitted nested fields *)

(** C7. A PATCH whose data has no [option_set] leaves the option table as it
    was: same rows, same contents, whatever else the request does. *)
Theorem omitted_option_set_untouched
    (st : Store) (pk : Z) (data : ProductData) :
  pd_option_set data = None →
  options (ProductViewSet.partial_update st pk data).1 = options st ∧
  ∀ instance,
    options (ProductSerializer.update st instance data).1 = options st.
Proof.
  intros Hd. split; [|intros; by apply serializer_update_options].
  unfold ProductViewSet.partial_update.
  destruct (ProductViewSet.get_object st pk) as [instance|]; [|done].
  unfold ProductSerializer.run_validation. rewrite Hd.
  by apply serializer_update_options.
Qed.

Lemma omitted_option_set_untouched_witness :
  options (ProductViewSet.partial_update Ex.stocked 1
    {| pd_name := Some (str "Updated Product Name");
       pd_option_set := None; pd_tag_set := None |}).1
  = options Ex.stocked.
Proof.
  refine (proj1 (omitted_option_set_untouched Ex.stocked 1 _ _)). reflexivity.
Defined.

Lemma serializer_update_tags
    (st : Store) (instance : Product) (validated_data : ProductData) :
  (pd_tag_set validated_data = None →
     ∃ st' product,
       ProductSerializer.update st instance validated_data
         = (st', inr product) ∧
       product_tags st' = product_tags st ∧ tags st' = tags st) ∧
  (pd_tag_set validated_data = Some [] →
     ∃ st' product,
       ProductSerializer.update st instance validated_data
         = (st', inr product) ∧
       tag_set_of st' (product_pk instance) = ∅ ∧
       (∀ q, q ≠ product_pk instance → tag_set_of st' q = tag_set_of st q) ∧
       tags st' = tags st).
Proof.
  unfold ProductSerializer.update.
  destruct (Nested.update st instance _) as [st1 product] eqn:Hu.
  pose proof Hu as [= _ Hproduct].
  apply nested_update_frame in Hu as (Ht & Hm & _).
  split; intros ->.
  - by exists st1, product.
  - eexists _, product. split; [reflexivity|].
    unfold tag_set_of, tag_set_set. simpl. rewrite Hm, Ht, <- Hproduct. simpl.
    split_and!; [by rewrite lookup_insert_eq| |done].
    intros q Hq. by rewrite lookup_insert_ne.
Qed.

Lemma get_object_pk st pk instance :
  ProductViewSet.get_object st pk = Some instance → product_pk instance = pk.
Proof.
  unfold ProductViewSet.get_object. intros Hh.
  assert (instance ∈ filter (λ r, product_pk r = pk) (products st)) as Hin.
  { destruct (filter _ _) as [|r l]; [done|]. injection Hh as ->.
    apply list_elem_of_here. }
  by apply list_elem_of_filter in Hin as [? _].
Qed.

(** C6. An update whose data has no [tag_set] does not run the tag
    reconciliation: [ProductSerializer.update] succeeds with the tag links
    and the Tag table as before, and so are they after the PATCH request,
    however it ends. An update whose [tag_set] is the empty list runs the
    reconciliation on no entry: [ProductSerializer.update] succeeds, the
    product is left with no tag, the links of the other products and the Tag
    table are as before; a PATCH request that succeeds leaves the same. *)
Theorem tag_set_omitted_or_empty (st : Store) (data : ProductData) :
  (pd_tag_set data = None →
     (∀ instance, ∃ st' product,
        ProductSerializer.update st instance data = (st', inr product) ∧
        product_tags st' = product_tags st ∧ tags st' = tags st) ∧
     (∀ pk,
        product_tags (ProductViewSet.partial_update st pk data).1
          = product_tags st ∧
        tags (ProductViewSet.partial_update st pk data).1 = tags st)) ∧
  (pd_tag_set data = Some [] →
     (∀ instance, ∃ st' product,
        ProductSerializer.update st instance data = (st', inr product) ∧
        tag_set_of st' (product_pk instance) = ∅ ∧
        (∀ q, q ≠ product_pk instance → tag_set_of st' q = tag_set_of st q) ∧
        tags st' = tags st) ∧
     (∀ pk st' product,
        ProductViewSet.partial_update st pk data = (st', inr product) →
        tag_set_of st' pk = ∅ ∧
        (∀ q, q ≠ pk → tag_set_of st' q = tag_set_of st q) ∧
        tags st' = tags st)).
Proof.
  split; intros Hd; (split; [intros instance;
    by apply (serializer_update_tags st instance data)|]).
  - intros pk. unfold ProductViewSet.partial_update.
    destruct (ProductViewSet.get_object st pk) as [instance|]; [|done].
    pose proof (serializer_validation_inv data) as Hinv.
    destruct (ProductSerializer.run_validation data) as [e|vd]; [done|].
    destruct Hinv as (_ & Hvd & _). rewrite Hd in Hvd.
    destruct (proj1 (serializer_update_tags st instance vd) Hvd)
      as (st' & product & -> & ? & ?). done.
  - intros pk st' product. unfold ProductViewSet.partial_update.
    destruct (ProductViewSet.get_object st pk) as [instance|] eqn:Hg; [|done].
    apply get_object_pk in Hg as <-.
    pose proof (serializer_validation_inv data) as Hinv.
    destruct (ProductSerializer.run_validation data) as [e|vd]; [done|].
    destruct Hinv as (_ & Hvd & _). rewrite Hd in Hvd.
    destruct (proj2 (serializer_update_tags st instance vd) Hvd)
      as (st2 & product2 & -> & ? & ? & ?). by intros [= <- _].
Qed.

Lemma tag_set_omitted_or_empty_witness :
  ∃ st' product,
    ProductSerializer.update Ex.stocked Ex.TestProduct
      {| pd_name := Some (str "TestProduct"); pd_option_set := None;
         pd_tag_set := Some [] |} = (st', inr product) ∧
    tag_set_of st' 1 = ∅ ∧
    (∀ q, q ≠ 1 → tag_set_of st' q = tag_set_of Ex.stocked q) ∧
    tags st' = tags Ex.stocked.
Proof.
  refine (proj1 (proj2 (tag_set_omitted_or_empty Ex.stocked _) _)
            Ex.TestProduct).
  reflexivity.
Defined.

(** ** Deleting a product *)

(** C8. Deleting a product never changes the Tag table. When the product
    exists, the delete succeeds and afterwards no product row has its key, no
    option is owned by it and it has no tag link; rows, options and links of
    the other products are kept. *)
Theorem destroy_keeps_tags (st : Store) (pk : Z) :
  tags (ProductViewSet.destroy st pk).1 = tags st ∧
  (is_Some (ProductViewSet.get_object st pk) →
     ∃ st', ProductViewSet.destroy st pk = (st', inr ()) ∧
       (∀ r, r ∈ products st' ↔ r ∈ products st ∧ product_pk r ≠ pk) ∧
       (∀ o, o ∈ options st' ↔ o ∈ options st ∧ option_product o ≠ pk) ∧
       product_tags st' !! pk = None ∧
       (∀ q, q ≠ pk → product_tags st' !! q = product_tags st !! q) ∧
       tags st' = tags st).
Proof.
  unfold ProductViewSet.destroy.
  destruct (ProductViewSet.get_object st pk) as [instance|]; [|split; [done|]].
  - split; [done|]. intros _. eexists. split; [reflexivity|]. simpl.
    split_and!; [| | |intros q Hq|done].
    + intros r. by rewrite list_elem_of_filter, (comm and).
    + intros o. by rewrite list_elem_of_filter, (comm and).
    + apply lookup_delete_eq.
    + by apply lookup_delete_ne.
  - by intros [? [=]].
Qed.

Lemma destroy_keeps_tags_witness :
  ∃ st', ProductViewSet.destroy Ex.stocked 1 = (st', inr ()) ∧
    (∀ r, r ∈ products st' ↔ r ∈ products Ex.stocked ∧ product_pk r ≠ 1) ∧
    (∀ o, o ∈ options st' ↔ o ∈ options Ex.stocked ∧ option_product o ≠ 1) ∧
    product_tags st' !! 1 = None ∧
    (∀ q, q ≠ 1 → product_tags st' !! q = product_tags Ex.stocked !! q) ∧
    tags st' = tags Ex.stocked.
Proof.
  refine (proj2 (destroy_keeps_tags Ex.stocked 1) _). by eexists.
Defined.

(** ** The tag loop, entry by entry *)

Section tag_loop_steps.
Import ProductSerializer.

Lemma names_of_cons_None td l :
  td_name td = None → names_of (td :: l) = names_of l.
Proof. unfold names_of. simpl. by intros ->. Qed.

Lemma names_of_cons_Some td l n :
  td_name td = Some n → names_of (td :: l) = {[n]} ∪ names_of l.
Proof. unfold names_of. simpl. by intros ->. Qed.

(** Running the loop over [pre ++ post] is running it over [pre] and, when
    that went through, over [post] with the names of [pre] marked. *)
Lemma process_loop_app pre post :
  ∀ insts seen st,
  process_loop (pre ++ post) insts seen st =
  match process_loop pre insts seen st with
  | (st1, inr insts1) => process_loop post insts1 (names_of pre ∪ seen) st1
  | (st1, inl e) => (st1, inl e)
  end.
Proof.
  induction pre as [|td pre IH]; intros insts seen st; simpl.
  { f_equal. unfold names_of. simpl. set_solver. }
  destruct (td_name td) as [n|] eqn:Hn.
  2:{ rewrite IH, (names_of_cons_None _ _ Hn). done. }
  rewrite (names_of_cons_Some _ _ _ Hn).
  destruct (decide (n ∈ seen)) as [Hin|Hnin].
  { rewrite IH. replace ({[n]} ∪ names_of pre ∪ seen)
      with (names_of pre ∪ seen) by set_solver. done. }
  replace ({[n]} ∪ names_of pre ∪ seen)
    with (names_of pre ∪ ({[n]} ∪ seen)) by set_solver.
  destruct (given_pk td) as [pk|].
  - destruct (TagObjects.get st pk); [by rewrite IH|done].
  - destruct (TagObjects.get_or_create st n) as [st1 [e|t]];
      [done|by rewrite IH].
Qed.

Lemma process_loop_instances tags_data :
  ∀ insts seen st st' insts',
  process_loop tags_data insts seen st = (st', inr insts') →
  ∃ more, insts' = insts ++ more.
Proof.
  induction tags_data as [|td rest IH]; intros insts seen st st' insts'; simpl.
  { intros [= <- <-]. exists []. by rewrite app_nil_r. }
  destruct (td_name td) as [n|]; [|by apply IH].
  destruct (decide (n ∈ seen)); [by apply IH|].
  destruct (given_pk td) as [pk|].
  - destruct (TagObjects.get st pk) as [t|]; [|done].
    intros (more & ->)%IH. exists (t :: more). by rewrite <- app_assoc.
  - destruct (TagObjects.get_or_create st n) as [st1 [e|t]]; [done|].
    intros (more & ->)%IH. exists (t :: more). by rewrite <- app_assoc.
Qed.

(** A tag found by key is still found, and is the same row, once rows have
    been appended to the table. *)
Lemma get_stable st st' pk t new :
  tags st' = tags st ++ new →
  TagObjects.get st pk = Some t → TagObjects.get st' pk = Some t.
Proof.
  unfold TagObjects.get. intros -> Hg. rewrite filter_app.
  destruct (filter _ (tags st)); [done|]. exact Hg.
Qed.

End tag_loop_steps.

(** ** Deduplication by name *)

Section dedup.
Import ProductSerializer.

Lemma process_loop_first_by_name tags_data :
  ∀ insts seen st,
  process_loop (first_by_name seen tags_data) insts seen st
  = process_loop tags_data insts seen st.
Proof.
  induction tags_data as [|td rest IH]; intros insts seen st; [done|].
  simpl. destruct (td_name td) as [n|] eqn:Hn; [|by apply IH].
  destruct (decide (n ∈ seen)) as [Hin|Hnin]; [by apply IH|].
  simpl. rewrite Hn, decide_False by done.
  destruct (given_pk td) as [pk|].
  - destruct (TagObjects.get st pk); [by apply IH|done].
  - destruct (TagObjects.get_or_create st n) as [st1 [e|t]];
      [done|by apply IH].
Qed.

Lemma at_most_one_new_trans c1 c2 c3 :
  at_most_one_new c1 c2 → at_most_one_new c2 c3 → at_most_one_new c1 c3.
Proof. unfold at_most_one_new. lia. Qed.

Lemma named_fresh n ts : n ∉ tag_name <$> ts → named n ts = [].
Proof.
  intros Hn. unfold named. induction ts as [|t ts IH]; [done|].
  rewrite filter_cons, decide_False by set_solver. apply IH. set_solver.
Qed.

Lemma get_or_create_count st m st' r n :
  TagObjects.get_or_create st m = (st', r) →
  at_most_one_new (List.length (named n (tags st))) (List.length (named n (tags st'))).
Proof.
  unfold TagObjects.get_or_create, TagObjects.create.
  destruct (filter _ (tags st)) as [|t [|??]] eqn:Hf; intros [= <- <-];
    try by left. simpl. unfold named. rewrite filter_app, length_app.
  rewrite filter_cons, filter_nil.
  destruct (decide (m = n)) as [->|Hne]; simpl.
  - right. rewrite Hf. by rewrite decide_True.
  - left. rewrite decide_False by done. simpl. lia.
Qed.

Lemma process_loop_count tags_data n :
  ∀ insts seen st st' r,
  process_loop tags_data insts seen st = (st', r) →
  at_most_one_new (List.length (named n (tags st))) (List.length (named n (tags st'))).
Proof.
  induction tags_data as [|td rest IH]; intros insts seen st st' r; simpl.
  { intros [= <- <-]. by left. }
  destruct (td_name td) as [m|]; [|by apply IH].
  destruct (decide (m ∈ seen)); [by apply IH|].
  destruct (given_pk td) as [pk|].
  - destruct (TagObjects.get st pk); [by apply IH|].
    intros [= <- <-]. by left.
  - destruct (TagObjects.get_or_create st m) as [st1 [e|t]] eqn:Hg;
      apply (get_or_create_count _ _ _ _ n) in Hg.
    + by intros [= <- <-].
    + intros Hrest%IH. by eapply at_most_one_new_trans.
Qed.

End dedup.

(** C5. Entries are taken in the submitted order and an entry whose name an
    earlier entry bears is dropped: reconciling a list is reconciling the list
    of its first entries per name. In one call no name gets more than one new
    Tag row, and a name that has a row gets none. Two entries with the same
    name, new to the Tag table, the first of them without pk, make exactly one
    new row, which is then the tag of the product. *)
Theorem tag_specs_deduplicated_by_name
    (st : Store) (product : Product) (tags_data : list TagData) :
  ProductSerializer._process_tags st product tags_data
    = ProductSerializer._process_tags st product (first_by_name ∅ tags_data) ∧
  (∀ n,
     at_most_one_new
       (List.length (named n (tags st)))
       (List.length (named n
          (tags (ProductSerializer._process_tags st product tags_data).1)))) ∧
  (∀ a b n,
     tags_data = [a; b] →
     td_name a = Some n → td_name b = Some n →
     ProductSerializer.given_pk a = None →
     n ∉ tag_name <$> tags st →
     let t := {| tag_pk := fresh_pk (tag_pk <$> tags st); tag_name := n |} in
     ProductSerializer._process_tags st product tags_data
       = (tag_set_set (product_pk product) [t] (set_tags (tags st ++ [t]) st),
          inr ())).
Proof.
  split_and!.
  - unfold ProductSerializer._process_tags.
    by rewrite process_loop_first_by_name.
  - intros n. unfold ProductSerializer._process_tags.
    destruct (ProductSerializer.process_loop _ _ _ _) as [st1 r] eqn:Hl.
    apply (process_loop_count _ n) in Hl. by destruct r.
  - intros a b n -> Ha Hb Hpk Hfresh. apply named_fresh in Hfresh.
    unfold ProductSerializer._process_tags. simpl.
    rewrite Ha, Hb, Hpk. rewrite decide_False by set_solver.
    unfold TagObjects.get_or_create. fold (named n (tags st)).
    rewrite Hfresh. simpl. by rewrite decide_True by set_solver.
Qed.

Lemma tag_specs_deduplicated_by_name_witness :
  ProductSerializer._process_tags Ex.base Ex.TestProduct
    [Ex.by_name "NewTag"; Ex.by_name "NewTag"]
  = (tag_set_set 1 [{| tag_pk := 3; tag_name := str "NewTag" |}]
       (set_tags (tags Ex.base ++ [{| tag_pk := 3; tag_name := str "NewTag" |}])
          Ex.base),
     inr ()).
Proof.
  refine (proj2 (proj2 (tag_specs_deduplicated_by_name Ex.base Ex.TestProduct
    [Ex.by_name "NewTag"; Ex.by_name "NewTag"]))
    (Ex.by_name "NewTag") (Ex.by_name "NewTag") (str "NewTag") _ _ _ _ _);
    try reflexivity.
  list_absent.
Defined.

(** ** Option reconciliation *)

Section option_diff.

(** The product whose options are reconciled, and the keys of the options it
    owned when the request came in. *)
Context (p : Z) (old : list Z).

Lemma changed_pk specs o :
  option_pk (changed p old specs o) = option_pk o.
Proof.
  unfold changed. destruct (decide _); [|done].
  by destruct (last_with_pk _ _).
Qed.

Lemma changed_owner specs o :
  Nested.owned_by p (changed p old specs o) ↔ Nested.owned_by p o.
Proof.
  unfold changed. destruct (decide _) as [[Ho _]|]; [|done].
  destruct (last_with_pk _ _); [|done]. by unfold Nested.owned_by.
Qed.

Lemma changed_pks specs (l : list ProductOption) :
  option_pk <$> (changed p old specs <$> l) = option_pk <$> l.
Proof.
  rewrite <- list_fmap_compose. apply list_fmap_ext. intros i o _.
  apply changed_pk.
Qed.

Lemma last_with_pk_snoc_eq k specs s :
  os_pk s = Some k → last_with_pk k (specs ++ [s]) = Some s.
Proof.
  intros Hs. unfold last_with_pk.
  rewrite filter_app, filter_cons_True, filter_nil by done.
  apply last_snoc.
Qed.

Lemma last_with_pk_snoc_ne k specs s :
  os_pk s ≠ Some k → last_with_pk k (specs ++ [s]) = last_with_pk k specs.
Proof.
  intros Hs. unfold last_with_pk.
  by rewrite filter_app, filter_cons_False, filter_nil, app_nil_r.
Qed.

Lemma last_with_pk_None k specs :
  last_with_pk k specs = None ↔ k ∉ Nested.submitted_pks specs.
Proof.
  unfold last_with_pk, Nested.submitted_pks. rewrite last_None.
  rewrite list_elem_of_omap. split.
  - intros Hf (s & Hs & Hk).
    assert (s ∈ filter (λ s, os_pk s = Some k) specs) as Hin
      by by apply list_elem_of_filter.
    rewrite Hf in Hin. by apply not_elem_of_nil in Hin.
  - intros Hno. destruct (filter _ specs) as [|s l] eqn:Hf; [done|].
    assert (s ∈ filter (λ s, os_pk s = Some k) specs) as Hin
      by (rewrite Hf; apply list_elem_of_here).
    apply list_elem_of_filter in Hin as [Hk Hs]. destruct Hno. eauto.
Qed.

Lemma save_options_rows st0 specs :
  (∀ k, k ∈ old → k ∈ option_pk <$> options st0) →
  ∃ created,
    options (foldl (Nested.save_option p old) st0 specs)
      = (changed p old specs <$> options st0) ++ created ∧
    row_data <$> created = spec_data p <$> filter (unmatched old) specs ∧
    Forall (λ o, option_pk o ∉ option_pk <$> options st0) created.
Proof.
  intros Hold. induction specs as [|s specs IH] using rev_ind.
  { exists []. simpl. rewrite app_nil_r. split_and!; [|done..].
    symmetry. rewrite <- (list_fmap_id (options st0)) at 2.
    apply list_fmap_ext. intros i o _. unfold changed.
    by destruct (decide _). }
  destruct IH as (created & Hos & Hrows & Hnew).
  rewrite foldl_app. simpl. rewrite filter_app, fmap_app.
  set (st1 := foldl (Nested.save_option p old) st0 specs) in *.
  unfold Nested.save_option.
  destruct (os_pk s) as [k|] eqn:Hk;
    [destruct (decide (k ∈ old)) as [Hin|Hnin]|].
  - (* the entry changes the options of the product that bear its key *)
    exists created.
    rewrite filter_cons_False, filter_nil, app_nil_r
      by (unfold unmatched; rewrite Hk; tauto).
    split_and!; [|done..].
    unfold Nested.change_option. simpl. rewrite Hos, fmap_app. f_equal.
    + rewrite <- list_fmap_compose. apply list_fmap_ext. intros i o _. simpl.
      rewrite changed_pk.
      destruct (decide (option_pk o = k ∧ _)) as [[<- Ho]|Hno].
      * apply changed_owner in Ho. unfold changed.
        rewrite decide_True by done. by rewrite last_with_pk_snoc_eq.
      * unfold changed. destruct (decide _) as [[Ho Hold']|]; [|done].
        rewrite last_with_pk_snoc_ne; [done|].
        intros Heq. rewrite Hk in Heq. injection Heq as ->.
        apply Hno. split; [done|]. apply changed_owner.
        exact Ho.
    + rewrite <- (list_fmap_id created) at 2. apply Forall_fmap_ext_1.
      eapply Forall_impl; [exact Hnew|]. intros o Ho. simpl.
      rewrite decide_False; [done|]. intros [Heq _]. apply Ho.
      rewrite Heq. by apply Hold.
  - (* the key is not one of the product: a new option *)
    eexists (created ++ [_]).
    rewrite filter_cons_True, filter_nil
      by (unfold unmatched; by rewrite Hk).
    unfold Nested.new_option. simpl. rewrite Hos, <- app_assoc.
    split_and!.
    + f_equal. apply list_fmap_ext. intros i o _. unfold changed.
      destruct (decide _) as [[Ho Hold']|]; [|done].
      rewrite last_with_pk_snoc_ne; [done|]. rewrite Hk. by intros [= ->].
    + rewrite fmap_app, Hrows. done.
    + apply Forall_app. split; [done|]. apply Forall_singleton. simpl.
      set (k' := fresh_pk _). intros Hin.
      apply (fresh_pk_fresh
               (option_pk <$> (changed p old specs <$> options st0) ++ created)).
      change (k' ∈ option_pk
                     <$> (changed p old specs <$> options st0) ++ created).
      rewrite fmap_app, changed_pks, elem_of_app. by left.
  - (* no key: a new option *)
    eexists (created ++ [_]).
    rewrite filter_cons_True, filter_nil
      by (unfold unmatched; by rewrite Hk).
    unfold Nested.new_option. simpl. rewrite Hos, <- app_assoc.
    split_and!.
    + f_equal. apply list_fmap_ext. intros i o _. unfold changed.
      destruct (decide _) as [[Ho Hold']|]; [|done].
      rewrite last_with_pk_snoc_ne; [done|]. by rewrite Hk.
    + rewrite fmap_app, Hrows. done.
    + apply Forall_app. split; [done|]. apply Forall_singleton. simpl.
      set (k' := fresh_pk _). intros Hin.
      apply (fresh_pk_fresh
               (option_pk <$> (changed p old specs <$> options st0) ++ created)).
      change (k' ∈ option_pk
                     <$> (changed p old specs <$> options st0) ++ created).
      rewrite fmap_app, changed_pks, elem_of_app. by left.
Qed.

End option_diff.

Lemma filter_fmap_omap {A B} (P : B → Prop) `{!∀ y, Decision (P y)}
    (f : A → B) (h : A → option B) (l : list A) :
  (∀ x, x ∈ l → (P (f x) ∧ h x = Some (f x)) ∨ (¬ P (f x) ∧ h x = None)) →
  filter P (f <$> l) = omap h l.
Proof.
  induction l as [|x l IH]; intros Hl; [done|]. rewrite fmap_cons. simpl.
  destruct (Hl x) as [[HP ->]|[HP ->]]; [apply list_elem_of_here|..].
  - rewrite filter_cons_True by done. f_equal. apply IH.
    intros y Hy. apply Hl. by apply list_elem_of_further.
  - rewrite filter_cons_False by done. apply IH.
    intros y Hy. apply Hl. by apply list_elem_of_further.
Qed.

Lemma filter_all {A} (P : A → Prop) `{!∀ x, Decision (P x)} (l : list A) :
  Forall P l → filter P l = l.
Proof.
  induction 1 as [|x l Hx _ IH]; [done|].
  by rewrite filter_cons_True, IH.
Qed.

Lemma reconcile_options_rows p specs st :
  ∃ created,
    options (Nested.reconcile_options p specs st)
      = omap (diff_row p specs) (options st) ++ created ∧
    row_data <$> created
      = spec_data p <$> filter (unmatched (Nested.owned_pks p st)) specs ∧
    Forall (λ o, option_pk o ∉ option_pk <$> options st) created.
Proof.
  assert (∀ k, k ∈ Nested.owned_pks p st → k ∈ option_pk <$> options st)
    as Hold.
  { intros k (o & -> & Ho)%list_elem_of_fmap.
    apply list_elem_of_filter in Ho as [_ Ho].
    by apply list_elem_of_fmap_2. }
  destruct (save_options_rows p (Nested.owned_pks p st) st specs Hold)
    as (created & Hos & Hrows & Hnew).
  exists created. split_and!; [|done..].
  unfold Nested.reconcile_options. simpl. rewrite Hos, filter_app. f_equal.
  - apply filter_fmap_omap. intros o Ho.
    unfold Nested.left_out, diff_row.
    rewrite changed_pk, changed_owner.
    destruct (decide (Nested.owned_by p o)) as [Hown|Hnot]; [|left].
    2:{ split; [tauto|]. unfold changed.
        rewrite decide_False; [done|tauto]. }
    assert (option_pk o ∈ Nested.owned_pks p st) as Hin.
    { apply list_elem_of_fmap_2. by apply list_elem_of_filter. }
    unfold changed. rewrite decide_True by done.
    destruct (last_with_pk (option_pk o) specs) as [s|] eqn:Hlast.
    + left. split; [|done]. intros (_ & _ & Hout).
      apply last_with_pk_None in Hout. congruence.
    + right. split; [|done]. intros Hkeep. apply Hkeep.
      split_and!; [done..|]. by apply last_with_pk_None.
  - apply filter_all. eapply Forall_impl; [exact Hnew|].
    intros o Ho (_ & Hin & _). by apply Ho, Hold.
Qed.

(** C4. An update whose validated data has an [option_set] replaces the
    options of the product by the submitted list, by key. Every stored option
    of the product whose key an entry bears keeps its place and key and takes
    the name and price of that entry (the last one, should several bear the
    key); every stored option of the product whose key no entry bears is
    deleted; every entry without a key, or with a key that is not the key of
    an option of the product, makes one new option of the product, with a key
    that no option had, these new options coming last, in the submitted
    order. The options of the other products are kept as they are. *)
Theorem option_set_full_replacement
    (st : Store) (instance : Product) (validated_data : ProductData)
    (specs : list OptionSpec) :
  pd_option_set validated_data = Some specs →
  ∃ created,
    options (ProductSerializer.update st instance validated_data).1
      = omap (diff_row (product_pk instance) specs) (options st) ++ created ∧
    row_data <$> created
      = spec_data (product_pk instance)
          <$> filter (unmatched (Nested.owned_pks (product_pk instance) st))
                specs ∧
    Forall (λ o, option_pk o ∉ option_pk <$> options st) created.
Proof.
  intros Hd. unfold ProductSerializer.update.
  destruct (Nested.update st instance _) as [st1 product] eqn:Hu.
  assert (options
            (match pd_tag_set validated_data with
             | Some tags_data =>
                 match ProductSerializer._process_tags st1 product tags_data with
                 | (st2, inr _) => (st2, inr product)
                 | (st2, inl e) => (st2, inl e)
                 end
             | None => (st1, inr product)
             end).1 = options st1) as ->.
  { destruct (pd_tag_set validated_data) as [tags_data|]; [|done].
    destruct (ProductSerializer._process_tags st1 product tags_data)
      as [st2 r] eqn:Hp.
    apply process_tags_frame in Hp as (_ & Hos & _). by destruct r. }
  revert Hu. unfold Nested.update. simpl. rewrite Hd. intros [= <- _].
  apply (reconcile_options_rows (product_pk instance) specs
           (set_products _ st)).
Qed.

Lemma option_set_full_replacement_witness :
  ∃ created,
    options (ProductSerializer.update Ex.stocked Ex.TestProduct
               Ex.complex_update).1
      = [{| option_pk := 1; option_product := 1;
            option_name := str "TestOption1"; option_price := 1000 |};
         {| option_pk := 2; option_product := 1;
            option_name := str "Edit TestOption2"; option_price := 1500 |}]
        ++ created ∧
    row_data <$> created = [(1, str "Edit New Option", 300)] ∧
    Forall (λ o, option_pk o ∉ option_pk <$> options Ex.stocked) created.
Proof.
  refine (option_set_full_replacement Ex.stocked Ex.TestProduct
            Ex.complex_update Ex.complex_options _).
  reflexivity.
Defined.

(** * Further properties of the code *)

(** ** What [strip] removes *)

Section strip.

Lemma lstrip_app_space (a s : pystr) :
  whitespace a → lstrip (a ++ s) = lstrip s.
Proof. induction 1 as [|c a Hc _ IH]; simpl; [done|]. by rewrite Hc. Qed.

Lemma lstrip_split (s : pystr) :
  ∃ a, s = a ++ lstrip s ∧ whitespace a.
Proof.
  induction s as [|c s (a & Hs & Ha)]; simpl.
  { exists []. split; [done|constructor]. }
  destruct (py_isspace c) eqn:Hc.
  - exists (c :: a). split; [by rewrite <- app_comm_cons, <- Hs|].
    by constructor.
  - exists []. split; [done|constructor].
Qed.

Lemma lstrip_head (s : pystr) c r :
  lstrip s = c :: r → py_isspace c = false.
Proof.
  induction s as [|c' s IH]; simpl; [done|].
  destruct (py_isspace c') eqn:Hc; [done|]. by intros [= <- _].
Qed.

Lemma lstrip_fixed (c : N) (r : pystr) :
  py_isspace c = false → lstrip (c :: r) = c :: r.
Proof. simpl. by intros ->. Qed.

Lemma lstrip_nil (s : pystr) : lstrip s = [] ↔ whitespace s.
Proof.
  split.
  - intros Hs. destruct (lstrip_split s) as (a & Ha & Hw).
    rewrite Hs, app_nil_r in Ha. by subst.
  - intros Hw. rewrite <- (app_nil_r s). by rewrite lstrip_app_space.
Qed.

Lemma lstrip_app_keep (s t : pystr) :
  lstrip s ≠ [] → lstrip (s ++ t) = lstrip s ++ t.
Proof.
  induction s as [|c s IH]; simpl; [done|].
  destruct (py_isspace c); [exact IH|done].
Qed.

Lemma whitespace_reverse (s : pystr) : whitespace (reverse s) ↔ whitespace s.
Proof. unfold whitespace. by rewrite Forall_reverse. Qed.

Lemma rstrip_app_space (s b : pystr) :
  whitespace b → rstrip (s ++ b) = rstrip s.
Proof.
  intros Hb. unfold rstrip. rewrite reverse_app, lstrip_app_space; [done|].
  by apply whitespace_reverse.
Qed.

Lemma rstrip_split (s : pystr) :
  ∃ b, s = rstrip s ++ b ∧ whitespace b.
Proof.
  destruct (lstrip_split (reverse s)) as (a & Hs & Ha).
  exists (reverse a). split; [|by apply whitespace_reverse].
  unfold rstrip. rewrite <- reverse_app, <- Hs. by rewrite reverse_involutive.
Qed.

Lemma rstrip_last (s r : pystr) c :
  rstrip s = r ++ [c] → py_isspace c = false.
Proof.
  unfold rstrip. intros Hs.
  apply (f_equal reverse) in Hs.
  rewrite reverse_involutive, reverse_app in Hs. simpl in Hs.
  by apply lstrip_head in Hs.
Qed.

Lemma rstrip_nil (s : pystr) : rstrip s = [] ↔ whitespace s.
Proof.
  unfold rstrip. rewrite <- whitespace_reverse, <- lstrip_nil.
  split; [|by intros ->].
  intros Hs. apply (f_equal reverse) in Hs.
  by rewrite reverse_involutive in Hs.
Qed.

Lemma rstrip_fixed (r : pystr) (c : N) :
  py_isspace c = false → rstrip (r ++ [c]) = r ++ [c].
Proof.
  intros Hc. unfold rstrip. rewrite reverse_app. simpl.
  rewrite Hc. by rewrite reverse_cons, reverse_involutive.
Qed.

(** The first code point that is not white space is still first after
    [rstrip]. *)
Lemma rstrip_head (c : N) (r : pystr) :
  py_isspace c = false → ∃ r', rstrip (c :: r) = c :: r'.
Proof.
  intros Hc. destruct (rstrip_split (c :: r)) as (b & Hs & Hb).
  destruct (rstrip (c :: r)) as [|c' r'] eqn:Hr.
  - simpl in Hs. subst b. apply Forall_cons in Hb as [Hc' _]. congruence.
  - simpl in Hs. injection Hs as <- _. eauto.
Qed.

Lemma strip_nil (s : pystr) : strip s = [] ↔ whitespace s.
Proof.
  unfold strip. rewrite rstrip_nil. split.
  - intros Hw. apply lstrip_nil. destruct (lstrip s) as [|c r] eqn:Hs; [done|].
    apply lstrip_head in Hs. apply Forall_cons in Hw as [Hc _]. congruence.
  - intros Hw%lstrip_nil. rewrite Hw. constructor.
Qed.

Lemma strip_split (s : pystr) :
  ∃ a b, s = a ++ strip s ++ b ∧ whitespace a ∧ whitespace b.
Proof.
  destruct (lstrip_split s) as (a & Hs & Ha).
  destruct (rstrip_split (lstrip s)) as (b & Hl & Hb).
  exists a, b. unfold strip. by rewrite <- Hl, <- Hs.
Qed.

Lemma strip_head (s : pystr) c r : strip s = c :: r → py_isspace c = false.
Proof.
  unfold strip. intros Hs. destruct (lstrip s) as [|c' r'] eqn:Hl.
  { by vm_compute in Hs. }
  pose proof (lstrip_head _ _ _ Hl) as Hc'.
  destruct (rstrip_head c' r' Hc') as (r'' & Hr). rewrite Hr in Hs.
  by injection Hs as <- _.
Qed.

Lemma strip_last (s r : pystr) c : strip s = r ++ [c] → py_isspace c = false.
Proof. apply rstrip_last. Qed.

Lemma strip_app_space (a s b : pystr) :
  whitespace a → whitespace b → strip (a ++ s ++ b) = strip s.
Proof.
  intros Ha Hb. unfold strip. rewrite lstrip_app_space by done.
  destruct (lstrip s) as [|c r] eqn:Hs.
  - apply lstrip_nil in Hs.
    assert (lstrip (s ++ b) = []) as ->; [|done].
    apply lstrip_nil. by apply Forall_app.
  - rewrite lstrip_app_keep, Hs by by rewrite Hs.
    by apply rstrip_app_space.
Qed.

Lemma strip_fixed (s : pystr) :
  (∀ c r, s = c :: r → py_isspace c = false) →
  (∀ r c, s = r ++ [c] → py_isspace c = false) →
  strip s = s.
Proof.
  intros Hhead Hlast. unfold strip. destruct s as [|c r]; [done|].
  rewrite lstrip_fixed by eauto.
  destruct (last (c :: r)) as [c'|] eqn:Hl; [|by apply last_None in Hl].
  apply last_Some in Hl as [r' Hs]. rewrite Hs. apply rstrip_fixed. eauto.
Qed.

End strip.

(** ** The option name validator *)

Lemma validate_name_accepted (value name : pystr) :
  ProductOptionSerializer.validate_name value = inr name →
  name = strip value ∧ strip value ≠ [].
Proof.
  rewrite validate_name_eq.
  destruct (decide (strip value = [])) as [|Hne]; [done|]. by intros [= <-].
Qed.

(** X1. An accepted option name is the submitted name without a run of white
    space at its start and one at its end, and nothing else is removed: the
    accepted name is not empty and neither starts nor ends with white
    space. *)
Theorem validate_name_strips_only_ends (value name : pystr) :
  ProductOptionSerializer.validate_name value = inr name →
  (∃ a b, value = a ++ name ++ b ∧ whitespace a ∧ whitespace b) ∧
  name ≠ [] ∧
  (∀ c r, name = c :: r → py_isspace c = false) ∧
  (∀ r c, name = r ++ [c] → py_isspace c = false).
Proof.
  intros [-> Hne]%validate_name_accepted.
  split_and!; [apply strip_split|done|..].
  - intros c r. apply strip_head.
  - intros r c. apply strip_last.
Qed.

Lemma validate_name_strips_only_ends_witness :
  (∃ a b, str "  Large size " = a ++ str "Large size" ++ b ∧
          whitespace a ∧ whitespace b) ∧
  str "Large size" ≠ [] ∧
  (∀ c r, str "Large size" = c :: r → py_isspace c = false) ∧
  (∀ r c, str "Large size" = r ++ [c] → py_isspace c = false).
Proof.
  refine (validate_name_strips_only_ends (str "  Large size ")
            (str "Large size") _).
  reflexivity.
Defined.

(** X2. Validation is idempotent: a name that [validate_name] returned is
    accepted again and returned unchanged. *)
Theorem validate_name_idempotent (value name : pystr) :
  ProductOptionSerializer.validate_name value = inr name →
  ProductOptionSerializer.validate_name name = inr name.
Proof.
  intros [-> Hne]%validate_name_accepted.
  rewrite validate_name_eq, (strip_fixed (strip value)).
  - by rewrite decide_False.
  - intros c r. apply strip_head.
  - intros r c. apply strip_last.
Qed.

Lemma validate_name_idempotent_witness :
  ProductOptionSerializer.validate_name (str "Large size")
  = inr (str "Large size").
Proof.
  refine (validate_name_idempotent (str "  Large size ") _ _). reflexivity.
Defined.

(** X3. White space around a submitted name does not count: with any white
    space put before and after it, a name gets the same verdict and the same
    accepted form. *)
Theorem validate_name_ignores_surrounding_space (a value b : pystr) :
  whitespace a → whitespace b →
  ProductOptionSerializer.validate_name (a ++ value ++ b)
  = ProductOptionSerializer.validate_name value.
Proof.
  intros Ha Hb. by rewrite !validate_name_eq, strip_app_space.
Qed.

Lemma validate_name_ignores_surrounding_space_witness :
  ProductOptionSerializer.validate_name (str " " ++ str "Opt" ++ str "  ")
  = ProductOptionSerializer.validate_name (str "Opt").
Proof.
  refine (validate_name_ignores_surrounding_space (str " ") (str "Opt")
            (str "  ") _ _);
    unfold whitespace; repeat constructor.
Defined.

(** X4. [validate_name] raises exactly for the names made of white space
    only, the empty name among them. *)
Theorem validate_name_rejects_iff_whitespace (value : pystr) :
  ProductOptionSerializer.validate_name value
    = inl (ValidationError [] OptionNameRequired)
  ↔ whitespace value.
Proof.
  rewrite validate_name_eq, <- strip_nil.
  by destruct (decide (strip value = [])).
Qed.

Lemma validate_name_rejects_iff_whitespace_witness :
  ProductOptionSerializer.validate_name [32; 9; 10; 160]%N
  = inl (ValidationError [] OptionNameRequired).
Proof.
  refine (proj2 (validate_name_rejects_iff_whitespace [32; 9; 10; 160]%N) _).
  unfold whitespace. repeat constructor.
Defined.

(** ** Lookups in the Tag table *)

Section tag_lookup.

Lemma get_elem_of st pk t :
  TagObjects.get st pk = Some t → t ∈ tags st ∧ tag_pk t = pk.
Proof.
  unfold TagObjects.get. intros Hh.
  assert (t ∈ filter (λ t, tag_pk t = pk) (tags st)) as Hin.
  { destruct (filter _ _) as [|t' l]; [done|]. injection Hh as ->.
    apply list_elem_of_here. }
  apply list_elem_of_filter in Hin. tauto.
Qed.

Lemma get_None_before st st' pk new :
  tags st' = tags st ++ new →
  TagObjects.get st' pk = None → TagObjects.get st pk = None.
Proof.
  intros Ht Hnone. destruct (TagObjects.get st pk) as [t|] eqn:Hg; [|done].
  by rewrite (get_stable _ _ _ _ _ Ht Hg) in Hnone.
Qed.

Lemma named_elem_of n ts t : t ∈ named n ts ↔ tag_name t = n ∧ t ∈ ts.
Proof. unfold named. by rewrite list_elem_of_filter. Qed.

Lemma named_nil n ts : named n ts = [] ↔ n ∉ tag_name <$> ts.
Proof.
  split; [|apply named_fresh].
  intros Hn (t & -> & Ht)%list_elem_of_fmap.
  assert (t ∈ named (tag_name t) ts) as Hin by by apply named_elem_of.
  rewrite Hn in Hin. by apply not_elem_of_nil in Hin.
Qed.

Lemma named_app n ts new : named n (ts ++ new) = named n ts ++ named n new.
Proof. unfold named. apply filter_app. Qed.

(** Where names are unique a name has no row or one row. *)
Lemma named_NoDup n ts :
  NoDup (tag_name <$> ts) → named n ts = [] ∨ ∃ t, named n ts = [t].
Proof.
  induction ts as [|t ts IH]; [by left|]. rewrite fmap_cons.
  intros [Hnew Hts]%NoDup_cons. unfold named. rewrite filter_cons.
  destruct (decide (tag_name t = n)) as [<-|Hne]; [|by apply IH].
  right. exists t. fold (named (tag_name t) ts). by rewrite named_fresh.
Qed.

(** What [get_or_create] hands back is the one row of the table that bears
    the name: a row that was there, or a row appended with an unused key. *)
Lemma get_or_create_row st n st1 t :
  TagObjects.get_or_create st n = (st1, inr t) →
  named n (tags st1) = [t] ∧ tag_name t = n ∧
  ((st1 = st ∧ named n (tags st) = [t]) ∨
   (named n (tags st) = [] ∧ st1 = set_tags (tags st ++ [t]) st ∧
    tag_pk t = fresh_pk (tag_pk <$> tags st))).
Proof.
  unfold TagObjects.get_or_create, TagObjects.create.
  fold (named n (tags st)).
  destruct (named n (tags st)) as [|t' [|??]] eqn:Hf; intros [= <- <-].
  - simpl. rewrite named_app, Hf. unfold named at 1.
    rewrite filter_cons, filter_nil, decide_True by done. eauto 10.
  - assert (t' ∈ named n (tags st)) as [Hn _]%named_elem_of
      by (rewrite Hf; apply list_elem_of_here). eauto 10.
Qed.

Lemma get_or_create_unique st n st1 r :
  NoDup (tag_name <$> tags st) →
  TagObjects.get_or_create st n = (st1, r) →
  NoDup (tag_name <$> tags st1) ∧ ∃ t, r = inr t.
Proof.
  intros Hu. unfold TagObjects.get_or_create, TagObjects.create.
  fold (named n (tags st)).
  destruct (named_NoDup n (tags st) Hu) as [Hf|[t Hf]]; rewrite Hf;
    intros [= <- <-]; [|eauto]. simpl.
  split; [|eauto]. rewrite fmap_app. apply NoDup_app. split_and!; [done| |].
  - intros m Hm [->|[]%elem_of_nil]%elem_of_cons. by apply named_nil in Hf.
  - apply NoDup_singleton.
Qed.

(** A name that has exactly one row keeps that row, and only that one,
    whatever the loop appends afterwards. *)
Lemma named_singleton_stable tags_data insts seen st st' r n t :
  ProductSerializer.process_loop tags_data insts seen st = (st', r) →
  named n (tags st) = [t] → named n (tags st') = [t].
Proof.
  intros Hl Hn.
  pose proof (process_loop_count _ n _ _ _ _ _ Hl) as Hc.
  apply process_loop_frame in Hl as (_ & _ & _ & new & Hnew).
  rewrite Hnew, named_app, Hn in *. rewrite length_app in Hc. simpl in Hc.
  destruct (named n new); [done|]. unfold at_most_one_new in Hc. simpl in Hc.
  lia.
Qed.

End tag_lookup.

(** ** Entries that do not count *)

(** X5. An entry without a name is passed over, whatever else it carries, a
    pk that no Tag has included: the reconciliation of a list does and
    returns the same with the entry taken out. *)
Theorem nameless_entry_ignored
    (st : Store) (product : Product) (l1 l2 : list TagData) (tag_data : TagData) :
  td_name tag_data = None →
  ProductSerializer._process_tags st product (l1 ++ tag_data :: l2)
  = ProductSerializer._process_tags st product (l1 ++ l2).
Proof.
  intros Hn. unfold ProductSerializer._process_tags.
  rewrite !process_loop_app.
  destruct (ProductSerializer.process_loop l1 [] ∅ st) as [st1 [e|insts]];
    [done|].
  simpl. by rewrite Hn.
Qed.

Lemma nameless_entry_ignored_witness :
  ProductSerializer._process_tags Ex.base Ex.TestProduct
    ([Ex.by_name "ExistTag"] ++ {| td_pk := Some 99999; td_name := None |} :: [])
  = ProductSerializer._process_tags Ex.base Ex.TestProduct
      ([Ex.by_name "ExistTag"] ++ []).
Proof.
  refine (nameless_entry_ignored Ex.base Ex.TestProduct _ _ _ _). reflexivity.
Defined.

(** X6. A pk of 0 counts as no pk: the entry is resolved by its name, through
    [get_or_create], and no Tag is looked up by key. *)
Theorem zero_pk_is_no_pk
    (st : Store) (product : Product) (l1 l2 : list TagData)
    (name : option pystr) :
  ProductSerializer._process_tags st product
    (l1 ++ {| td_pk := Some 0; td_name := name |} :: l2)
  = ProductSerializer._process_tags st product
      (l1 ++ {| td_pk := None; td_name := name |} :: l2).
Proof.
  unfold ProductSerializer._process_tags. rewrite !process_loop_app.
  destruct (ProductSerializer.process_loop l1 [] ∅ st) as [st1 [e|insts]];
    [done|by destruct name].
Qed.

(** ** Invariants of the Tag table *)

Section tag_table_invariant.

(** A property of the Tag table that holds on to the table when a row with an
    unused key is appended for a name that has no row. *)
Context (Inv : list Tag → Prop).
Context (Inv_create : ∀ ts n,
  Inv ts → named n ts = [] →
  Inv (ts ++ [{| tag_pk := fresh_pk (tag_pk <$> ts); tag_name := n |}])).

Lemma get_or_create_invariant st n st1 r :
  Inv (tags st) → TagObjects.get_or_create st n = (st1, r) → Inv (tags st1).
Proof.
  intros HI. unfold TagObjects.get_or_create, TagObjects.create.
  fold (named n (tags st)).
  destruct (named n (tags st)) as [|t' [|??]] eqn:Hf; intros [= <- <-];
    [|done..]. simpl. by apply Inv_create.
Qed.

Lemma process_loop_invariant tags_data :
  ∀ insts seen st st' r,
  Inv (tags st) →
  ProductSerializer.process_loop tags_data insts seen st = (st', r) →
  Inv (tags st').
Proof.
  induction tags_data as [|td rest IH]; intros insts seen st st' r HI; simpl.
  { by intros [= <- <-]. }
  destruct (td_name td) as [n|]; [|by apply IH].
  destruct (decide (n ∈ seen)); [by apply IH|].
  destruct (ProductSerializer.given_pk td) as [pk|].
  - destruct (TagObjects.get st pk); [by apply IH|]. by intros [= <- <-].
  - destruct (TagObjects.get_or_create st n) as [st1 [e|t]] eqn:Hg;
      apply get_or_create_invariant in Hg; try done.
    + by intros [= <- <-].
    + by apply IH.
Qed.

Lemma process_tags_invariant st product tags_data :
  Inv (tags st) →
  Inv (tags (ProductSerializer._process_tags st product tags_data).1).
Proof.
  intros HI. unfold ProductSerializer._process_tags.
  destruct (ProductSerializer.process_loop tags_data [] ∅ st)
    as [st1 [e|insts]] eqn:Hl;
    by apply (process_loop_invariant _ _ _ _ _ _ HI) in Hl.
Qed.

End tag_table_invariant.

(** X7. Tag names stay unique: if no two rows of the Tag table bear the same
    name before a reconciliation, none do after it, whether it succeeded or
    failed. *)
Theorem tag_names_stay_unique
    (st : Store) (product : Product) (tags_data : list TagData) :
  NoDup (tag_name <$> tags st) →
  NoDup (tag_name <$>
           tags (ProductSerializer._process_tags st product tags_data).1).
Proof.
  apply (process_tags_invariant (λ ts, NoDup (tag_name <$> ts))).
  intros ts n Hu Hn. rewrite fmap_app. apply NoDup_app. split_and!; [done| |].
  - intros m Hm [->|[]%elem_of_nil]%elem_of_cons. by apply named_nil in Hn.
  - apply NoDup_singleton.
Qed.

Lemma tag_names_stay_unique_witness :
  NoDup (tag_name <$>
           tags (ProductSerializer._process_tags Ex.base Ex.TestProduct
                   [Ex.by_name "NewTag"; Ex.by_name "ExistTag";
                    Ex.by_name "NewTag"]).1).
Proof.
  refine (tag_names_stay_unique Ex.base Ex.TestProduct _ _).
  vm_compute. repeat constructor; list_absent.
Defined.

(** X8. Tag keys stay unique: if no two rows of the Tag table have the same
    key before a reconciliation, none do after it, whether it succeeded or
    failed. *)
Theorem tag_pks_stay_unique
    (st : Store) (product : Product) (tags_data : list TagData) :
  NoDup (tag_pk <$> tags st) →
  NoDup (tag_pk <$>
           tags (ProductSerializer._process_tags st product tags_data).1).
Proof.
  apply (process_tags_invariant (λ ts, NoDup (tag_pk <$> ts))).
  intros ts n Hu _. rewrite fmap_app. apply NoDup_app. split_and!; [done| |].
  - intros k Hk [->|[]%elem_of_nil]%elem_of_cons.
    by apply fresh_pk_fresh in Hk.
  - apply NoDup_singleton.
Qed.

Lemma tag_pks_stay_unique_witness :
  NoDup (tag_pk <$>
           tags (ProductSerializer._process_tags Ex.base Ex.TestProduct
                   [Ex.by_name "NewTag"; Ex.by_pk 2 "Other";
                    Ex.by_name "Third"]).1).
Proof.
  refine (tag_pks_stay_unique Ex.base Ex.TestProduct _ _).
  vm_compute. repeat constructor; list_absent.
Defined.

(** ** Why a reconciliation fails *)

Lemma process_loop_failure tags_data :
  ∀ insts seen st st' e,
  NoDup (tag_name <$> tags st) →
  ProductSerializer.process_loop tags_data insts seen st = (st', inl e) →
  ∃ tag_data pk,
    tag_data ∈ tags_data ∧ ProductSerializer.given_pk tag_data = Some pk ∧
    TagObjects.get st pk = None ∧
    e = ValidationError ["tag_set"%string] (TagDoesNotExist pk).
Proof.
  induction tags_data as [|td rest IH]; intros insts seen st st' e Hu; simpl;
    [done|].
  assert (∀ insts seen,
    ProductSerializer.process_loop rest insts seen st = (st', inl e) →
    ∃ tag_data pk,
      tag_data ∈ td :: rest ∧ ProductSerializer.given_pk tag_data = Some pk ∧
      TagObjects.get st pk = None ∧
      e = ValidationError ["tag_set"%string] (TagDoesNotExist pk)) as Hskip.
  { intros insts0 seen0 (td' & pk & Hin & ?)%IH; [|done].
    exists td', pk. split; [by apply list_elem_of_further|done]. }
  destruct (td_name td) as [n|]; [|by apply Hskip].
  destruct (decide (n ∈ seen)); [by apply Hskip|].
  destruct (ProductSerializer.given_pk td) as [pk|] eqn:Hpk.
  - destruct (TagObjects.get st pk) eqn:Hg; [by apply Hskip|].
    intros [= <- <-]. exists td, pk. split; [apply list_elem_of_here|done].
  - destruct (TagObjects.get_or_create st n) as [st1 r] eqn:Hc.
    pose proof Hc as (_ & _ & _ & new & Hnew)%get_or_create_frame.
    apply (get_or_create_unique _ _ _ _ Hu) in Hc as (Hu1 & t & ->).
    intros (td' & pk & Hin & Hpk' & Hget & ->)%IH; [|done].
    exists td', pk. split_and!; [by apply list_elem_of_further|done| |done].
    by eapply get_None_before.
Qed.

(** X9. Where tag names are unique in the table, a reconciliation can only
    fail on a missing key: the error is the validation error under [tag_set]
    for the pk of one of the entries, a pk that no Tag had when the call
    began. A list in which no entry bears a pk therefore always goes
    through. *)
Theorem unique_names_failure_is_missing_pk
    (st : Store) (product : Product) (tags_data : list TagData) :
  NoDup (tag_name <$> tags st) →
  (∀ st' e,
     ProductSerializer._process_tags st product tags_data = (st', inl e) →
     ∃ tag_data pk,
       tag_data ∈ tags_data ∧ ProductSerializer.given_pk tag_data = Some pk ∧
       TagObjects.get st pk = None ∧
       e = ValidationError ["tag_set"%string] (TagDoesNotExist pk)) ∧
  ((∀ tag_data, tag_data ∈ tags_data →
      ProductSerializer.given_pk tag_data = None) →
   ∃ st', ProductSerializer._process_tags st product tags_data = (st', inr ())).
Proof.
  intros Hu.
  assert (∀ st' e,
     ProductSerializer._process_tags st product tags_data = (st', inl e) →
     ∃ tag_data pk,
       tag_data ∈ tags_data ∧ ProductSerializer.given_pk tag_data = Some pk ∧
       TagObjects.get st pk = None ∧
       e = ValidationError ["tag_set"%string] (TagDoesNotExist pk)) as Hfail.
  { intros st' e. unfold ProductSerializer._process_tags.
    destruct (ProductSerializer.process_loop tags_data [] ∅ st)
      as [st1 [e1|insts]] eqn:Hl; [|done].
    intros [= <- <-]. by eapply process_loop_failure. }
  split; [done|]. intros Hnopk.
  destruct (ProductSerializer._process_tags st product tags_data)
    as [st' [e|[]]] eqn:Hp; [|eauto].
  destruct (Hfail _ _ eq_refl) as (td & pk & Hin & Hpk & _).
  rewrite (Hnopk td Hin) in Hpk. done.
Qed.

Lemma unique_names_failure_is_missing_pk_witness :
  ∃ st', ProductSerializer._process_tags Ex.base Ex.TestProduct
           [Ex.by_name "ExistTag"; Ex.by_name "NewTag"] = (st', inr ()).
Proof.
  refine (proj2 (unique_names_failure_is_missing_pk Ex.base Ex.TestProduct
                   [Ex.by_name "ExistTag"; Ex.by_name "NewTag"] _) _).
  - vm_compute. repeat constructor; list_absent.
  - intros td Hin. repeat (apply elem_of_cons in Hin as [->|Hin]; [done|]).
    by apply elem_of_nil in Hin.
Defined.

(** ** Reconciling twice *)

(** The loop that went through from [st] to [st'] goes through again on any
    store that has the Tag table of [st'], resolves every entry to the same
    tag and writes nothing. *)
Lemma process_loop_replay tags_data :
  ∀ insts seen st st' insts',
  ProductSerializer.process_loop tags_data insts seen st = (st', inr insts') →
  ∀ s, tags s = tags st' →
  ProductSerializer.process_loop tags_data insts seen s = (s, inr insts').
Proof.
  induction tags_data as [|td rest IH]; intros insts seen st st' insts'; simpl.
  { by intros [= <- <-]. }
  destruct (td_name td) as [n|]; [|by apply IH].
  destruct (decide (n ∈ seen)); [by apply IH|].
  destruct (ProductSerializer.given_pk td) as [pk|].
  - destruct (TagObjects.get st pk) as [t|] eqn:Hg; [|done].
    intros Hrest s Hs.
    pose proof Hrest as (_ & _ & _ & new & Hnew)%process_loop_frame.
    rewrite (get_stable st s pk t new); [by eapply IH|congruence|done].
  - destruct (TagObjects.get_or_create st n) as [st1 [e|t]] eqn:Hc; [done|].
    intros Hrest s Hs.
    apply get_or_create_row in Hc as (Hone & _ & _).
    pose proof (named_singleton_stable _ _ _ _ _ _ _ _ Hrest Hone) as Hend.
    unfold TagObjects.get_or_create. fold (named n (tags s)).
    rewrite Hs, Hend. by eapply IH.
Qed.

(** X10. Reconciling is idempotent: when [_process_tags] has gone through,
    calling it again with the same list on the store it left goes through
    too, creates no Tag and leaves that store exactly as it is. *)
Theorem process_tags_idempotent
    (st st' : Store) (product : Product) (tags_data : list TagData) :
  ProductSerializer._process_tags st product tags_data = (st', inr ()) →
  ProductSerializer._process_tags st' product tags_data = (st', inr ()).
Proof.
  unfold ProductSerializer._process_tags.
  destruct (ProductSerializer.process_loop tags_data [] ∅ st)
    as [st1 [e|insts]] eqn:Hl; [done|]. intros [= <-].
  rewrite (process_loop_replay _ _ _ _ _ _ Hl
             (tag_set_set (product_pk product) insts st1) eq_refl).
  f_equal. unfold tag_set_set, set_product_tags. simpl.
  by rewrite insert_insert_eq.
Qed.

Lemma process_tags_idempotent_witness :
  let st' := (ProductSerializer._process_tags Ex.stocked Ex.TestProduct
                [Ex.by_pk 2 "Second"; Ex.by_name "Fresh";
                 Ex.by_name "ExistTag"]).1 in
  ProductSerializer._process_tags st' Ex.TestProduct
    [Ex.by_pk 2 "Second"; Ex.by_name "Fresh"; Ex.by_name "ExistTag"]
  = (st', inr ()).
Proof.
  refine (process_tags_idempotent Ex.stocked _ Ex.TestProduct _ _).
  reflexivity.
Defined.

(** ** What a product is linked to *)

Lemma process_loop_instances_exist tags_data :
  ∀ insts seen st st' insts',
  ProductSerializer.process_loop tags_data insts seen st = (st', inr insts') →
  (∀ t, t ∈ insts → t ∈ tags st) →
  ∀ t, t ∈ insts' → t ∈ tags st'.
Proof.
  induction tags_data as [|td rest IH]; intros insts seen st st' insts'; simpl.
  { by intros [= <- <-]. }
  destruct (td_name td) as [n|]; [|by apply IH].
  destruct (decide (n ∈ seen)); [by apply IH|].
  destruct (ProductSerializer.given_pk td) as [pk|].
  - destruct (TagObjects.get st pk) as [t|] eqn:Hg; [|done].
    intros Hrest Hin. eapply IH; [exact Hrest|].
    intros t' [?|Ht']%elem_of_app; [by apply Hin|].
    apply list_elem_of_singleton in Ht' as ->.
    by apply get_elem_of in Hg as [? _].
  - destruct (TagObjects.get_or_create st n) as [st1 [e|t]] eqn:Hc; [done|].
    intros Hrest Hin. eapply IH; [exact Hrest|].
    pose proof Hc as (_ & _ & _ & new & Hnew)%get_or_create_frame.
    apply get_or_create_row in Hc as (Hone & _ & _).
    intros t' [?|Ht']%elem_of_app.
    + rewrite Hnew, elem_of_app. left. by apply Hin.
    + apply list_elem_of_singleton in Ht' as ->. assert (t ∈ named n (tags st1)) as [_ ?]%named_elem_of; [|done].
      rewrite Hone. apply list_elem_of_here.
Qed.

(** X11. After a reconciliation that went through, every key the product is
    linked to is the key of a row of the Tag table, and the links of every
    other product are the ones it had. *)
Theorem linked_tags_exist
    (st st' : Store) (product : Product) (tags_data : list TagData) :
  ProductSerializer._process_tags st product tags_data = (st', inr ()) →
  (∀ k, k ∈ tag_set_of st' (product_pk product) →
     ∃ t, t ∈ tags st' ∧ tag_pk t = k) ∧
  (∀ q, q ≠ product_pk product → tag_set_of st' q = tag_set_of st q).
Proof.
  unfold ProductSerializer._process_tags.
  destruct (ProductSerializer.process_loop tags_data [] ∅ st)
    as [st1 [e|insts]] eqn:Hl; [done|]. intros [= <-].
  unfold tag_set_of, tag_set_set. simpl. split.
  - intros k. rewrite lookup_insert_eq. simpl.
    intros (t & -> & Ht)%elem_of_list_to_set%list_elem_of_fmap.
    exists t. split; [|done].
    eapply process_loop_instances_exist; [exact Hl| |exact Ht].
    by intros ? ?%elem_of_nil.
  - intros q Hq. rewrite lookup_insert_ne by done.
    by apply process_loop_frame in Hl as (_ & _ & -> & _).
Qed.

Lemma linked_tags_exist_witness :
  let st' := (ProductSerializer._process_tags Ex.stocked Ex.TestProduct
                [Ex.by_pk 2 "Second"; Ex.by_name "Fresh"]).1 in
  (∀ k, k ∈ tag_set_of st' 1 → ∃ t, t ∈ tags st' ∧ tag_pk t = k) ∧
  (∀ q, q ≠ 1 → tag_set_of st' q = tag_set_of Ex.stocked q).
Proof.
  refine (linked_tags_exist Ex.stocked _ Ex.TestProduct
            [Ex.by_pk 2 "Second"; Ex.by_name "Fresh"] _).
  reflexivity.
Defined.

(** ** Lists that resolve every entry by name *)

Section by_name.
Import ProductSerializer.

Lemma process_loop_created tags_data :
  ∀ insts seen st st' insts',
  (∀ td, td ∈ tags_data → given_pk td = None) →
  process_loop tags_data insts seen st = (st', inr insts') →
  ∃ created,
    tags st' = tags st ++ created ∧
    tag_name <$> created
      = omap td_name
          (first_by_name (seen ∪ list_to_set (tag_name <$> tags st)) tags_data).
Proof.
  induction tags_data as [|td rest IH]; intros insts seen st st' insts' Hno;
    simpl.
  { intros [= <- <-]. exists []. by rewrite app_nil_r. }
  assert (∀ td', td' ∈ rest → given_pk td' = None) as Hno'.
  { intros td' Hin. by apply Hno, list_elem_of_further. }
  rewrite (Hno td) by apply list_elem_of_here.
  destruct (td_name td) as [n|] eqn:Hn; [|by apply IH].
  destruct (decide (n ∈ seen)) as [Hseen|Hseen].
  { rewrite decide_True by set_solver. by apply IH. }
  destruct (TagObjects.get_or_create st n) as [st1 [e|t]] eqn:Hc; [done|].
  apply get_or_create_row in Hc as (_ & Ht & [[-> Hone]|(Hnone & -> & _)]).
  - (* the name has its row: nothing is created for it *)
    assert (n ∈ (list_to_set (tag_name <$> tags st) : gset pystr)) as Hin.
    { apply elem_of_list_to_set, list_elem_of_fmap. exists t.
      split; [done|]. apply (named_elem_of n). rewrite Hone.
      apply list_elem_of_here. }
    rewrite decide_True by set_solver.
    intros (created & Hcreated & Hnames)%IH; [|done].
    exists created. split; [done|]. etrans; [exact Hnames|].
    do 2 f_equal. set_solver.
  - (* the name is new: one row is appended *)
    apply named_nil in Hnone.
    rewrite decide_False
      by (rewrite elem_of_union, elem_of_list_to_set; tauto).
    intros (created & Hcreated & Hnames)%IH; [|done]. simpl in Hcreated.
    exists (t :: created). rewrite Hcreated, <- app_assoc. split; [done|].
    simpl. rewrite Hn, Ht. f_equal. etrans; [exact Hnames|]. do 2 f_equal.
    change (tags (set_tags (tags st ++ [t]) st)) with (tags st ++ [t]).
    rewrite fmap_app, list_to_set_app_L. simpl. rewrite Ht. set_solver.
Qed.

Lemma process_loop_instance_names tags_data :
  ∀ insts seen st st' insts',
  (∀ td, td ∈ tags_data → given_pk td = None) →
  process_loop tags_data insts seen st = (st', inr insts') →
  ∀ t, t ∈ insts' → t ∈ insts ∨ tag_name t ∈ names_of tags_data.
Proof.
  induction tags_data as [|td rest IH]; intros insts seen st st' insts' Hno;
    simpl.
  { intros [= <- <-]. by left. }
  assert (∀ td', td' ∈ rest → given_pk td' = None) as Hno'.
  { intros td' Hin. by apply Hno, list_elem_of_further. }
  rewrite (Hno td) by apply list_elem_of_here.
  destruct (td_name td) as [n|] eqn:Hn.
  2:{ rewrite (names_of_cons_None _ _ Hn). by apply IH. }
  rewrite (names_of_cons_Some _ _ _ Hn).
  destruct (decide (n ∈ seen)).
  { intros Hrest t Ht.
    destruct (IH _ _ _ _ _ Hno' Hrest t Ht); [by left|right; set_solver]. }
  destruct (TagObjects.get_or_create st n) as [st1 [e|t0]] eqn:Hc; [done|].
  apply get_or_create_row in Hc as (_ & Ht0 & _).
  intros Hrest t Ht.
  destruct (IH _ _ _ _ _ Hno' Hrest t Ht) as [Hin|Hin]; [|right; set_solver].
  apply elem_of_app in Hin as [?|Hin]; [by left|].
  apply list_elem_of_singleton in Hin as ->. right. set_solver.
Qed.

Lemma process_loop_resolved tags_data :
  ∀ insts seen st st' insts',
  (∀ td, td ∈ tags_data → given_pk td = None) →
  process_loop tags_data insts seen st = (st', inr insts') →
  ∀ n, n ∈ names_of tags_data → n ∉ seen →
  ∃ t, named n (tags st') = [t] ∧ t ∈ insts'.
Proof.
  induction tags_data as [|td rest IH]; intros insts seen st st' insts' Hno;
    simpl.
  { intros _ n Hn. unfold names_of in Hn. simpl in Hn. set_solver. }
  assert (∀ td', td' ∈ rest → given_pk td' = None) as Hno'.
  { intros td' Hin. by apply Hno, list_elem_of_further. }
  rewrite (Hno td) by apply list_elem_of_here.
  destruct (td_name td) as [m|] eqn:Hm.
  2:{ rewrite (names_of_cons_None _ _ Hm). by apply IH. }
  rewrite (names_of_cons_Some _ _ _ Hm).
  destruct (decide (m ∈ seen)) as [Hm_seen|Hm_new].
  { intros Hrest n Hn Hseen. eapply IH; [done..| |done]. set_solver. }
  destruct (TagObjects.get_or_create st m) as [st1 [e|t0]] eqn:Hc; [done|].
  apply get_or_create_row in Hc as (Hone & _ & _).
  intros Hrest n Hn Hseen. destruct (decide (n = m)) as [->|Hne].
  - exists t0. split; [by eapply named_singleton_stable|].
    apply process_loop_instances in Hrest as [more ->].
    rewrite !elem_of_app, list_elem_of_singleton. tauto.
  - eapply IH; [done..| |]; set_solver.
Qed.

End by_name.

(** X12. When no entry bears a pk and the reconciliation goes through, the
    Tag table grows by exactly one row for each submitted name that had no
    row, in the order in which these names first appear in the list; a name
    that has its row, or comes a second time, adds nothing. *)
Theorem new_tag_rows_by_name
    (st st' : Store) (product : Product) (tags_data : list TagData) :
  (∀ tag_data, tag_data ∈ tags_data →
     ProductSerializer.given_pk tag_data = None) →
  ProductSerializer._process_tags st product tags_data = (st', inr ()) →
  ∃ created,
    tags st' = tags st ++ created ∧
    tag_name <$> created
      = omap td_name
          (first_by_name (list_to_set (tag_name <$> tags st)) tags_data).
Proof.
  intros Hno. unfold ProductSerializer._process_tags.
  destruct (ProductSerializer.process_loop tags_data [] ∅ st)
    as [st1 [e|insts]] eqn:Hl; [done|]. intros [= <-].
  apply (process_loop_created tags_data _ _ _ _ _ Hno) in Hl
    as (created & Ht & Hnames).
  exists created. split; [done|]. rewrite Hnames. do 2 f_equal. set_solver.
Qed.

Lemma new_tag_rows_by_name_witness :
  ∃ created,
    tags (ProductSerializer._process_tags Ex.base Ex.TestProduct
            [Ex.by_name "B"; Ex.by_name "ExistTag"; Ex.by_name "A";
             Ex.by_name "B"]).1
      = tags Ex.base ++ created ∧
    tag_name <$> created
      = omap td_name [Ex.by_name "B"; Ex.by_name "A"].
Proof.
  refine (new_tag_rows_by_name Ex.base _ Ex.TestProduct
            [Ex.by_name "B"; Ex.by_name "ExistTag"; Ex.by_name "A";
             Ex.by_name "B"] _ _).
  - intros td Hin. repeat (apply elem_of_cons in Hin as [->|Hin]; [done|]).
    by apply elem_of_nil in Hin.
  - reflexivity.
Defined.

Lemma process_tags_links_by_name
    (st st' : Store) (product : Product) (tags_data : list TagData) :
  (∀ tag_data, tag_data ∈ tags_data →
     ProductSerializer.given_pk tag_data = None) →
  ProductSerializer._process_tags st product tags_data = (st', inr ()) →
  ∀ k, k ∈ tag_set_of st' (product_pk product) ↔
       ∃ t, t ∈ tags st' ∧ tag_pk t = k ∧ tag_name t ∈ names_of tags_data.
Proof.
  intros Hno. unfold ProductSerializer._process_tags.
  destruct (ProductSerializer.process_loop tags_data [] ∅ st)
    as [st1 [e|insts]] eqn:Hl; [done|]. intros [= <-] k.
  unfold tag_set_of, tag_set_set. simpl. rewrite lookup_insert_eq. simpl.
  rewrite elem_of_list_to_set, list_elem_of_fmap. split.
  - intros (t & -> & Ht). exists t. split_and!; [|done|].
    + eapply process_loop_instances_exist; [exact Hl| |exact Ht].
      by intros ? ?%elem_of_nil.
    + destruct (process_loop_instance_names _ _ _ _ _ _ Hno Hl t Ht)
        as [[]%elem_of_nil|]; done.
  - intros (t & Ht & <- & Hname).
    destruct (process_loop_resolved _ _ _ _ _ _ Hno Hl _ Hname)
      as (t0 & Hone & Hin); [set_solver|].
    assert (t ∈ named (tag_name t) (tags st1)) as Hrow
      by by apply named_elem_of.
    rewrite Hone in Hrow. apply list_elem_of_singleton in Hrow as ->. eauto.
Qed.

(** X13. When no entry bears a pk and the reconciliation goes through, the
    product is linked to the tags that bear a submitted name and to no other:
    whatever it was linked to before does not count. *)
Theorem links_are_submitted_names
    (st st' : Store) (product : Product) (tags_data : list TagData) :
  (∀ tag_data, tag_data ∈ tags_data →
     ProductSerializer.given_pk tag_data = None) →
  ProductSerializer._process_tags st product tags_data = (st', inr ()) →
  ∀ k, k ∈ tag_set_of st' (product_pk product) ↔
       ∃ t, t ∈ tags st' ∧ tag_pk t = k ∧ tag_name t ∈ names_of tags_data.
Proof. apply process_tags_links_by_name. Qed.

Lemma links_are_submitted_names_witness :
  2 ∈ tag_set_of
        (ProductSerializer._process_tags Ex.stocked Ex.TestProduct
           [Ex.by_name "AnotherExistTag"; Ex.by_name "Fresh"]).1 1 ↔
  ∃ t, t ∈ tags (ProductSerializer._process_tags Ex.stocked
                   Ex.TestProduct
                   [Ex.by_name "AnotherExistTag"; Ex.by_name "Fresh"]).1 ∧
       tag_pk t = 2 ∧
       tag_name t ∈ names_of [Ex.by_name "AnotherExistTag";
                              Ex.by_name "Fresh"].
Proof.
  refine (links_are_submitted_names Ex.stocked _ Ex.TestProduct
            [Ex.by_name "AnotherExistTag"; Ex.by_name "Fresh"] _ _ 2).
  - intros td Hin. repeat (apply elem_of_cons in Hin as [->|Hin]; [done|]).
    by apply elem_of_nil in Hin.
  - reflexivity.
Defined.

(** ** Saving a product *)

(** X14. A create or an update that succeeds with a tag list in which no
    entry bears a pk leaves the saved product linked to the tags that bear a
    submitted name and to no other. For a create the list left out counts as
    the empty list: the new product has no tag. *)
Theorem saved_links_are_submitted_names
    (st st' : Store) (validated_data : ProductData) (product : Product)
    (tags_data : list TagData) :
  (∀ tag_data, tag_data ∈ tags_data →
     ProductSerializer.given_pk tag_data = None) →
  (ProductSerializer.create st validated_data = (st', inr product) ∧
   default [] (pd_tag_set validated_data) = tags_data) ∨
  (∃ instance,
     ProductSerializer.update st instance validated_data = (st', inr product) ∧
     pd_tag_set validated_data = Some tags_data) →
  ∀ k, k ∈ tag_set_of st' (product_pk product) ↔
       ∃ t, t ∈ tags st' ∧ tag_pk t = k ∧ tag_name t ∈ names_of tags_data.
Proof.
  intros Hno [[Hsave <-]|(instance & Hsave & Htags)]; revert Hsave.
  - unfold ProductSerializer.create.
    destruct (Nested.create st _) as [st1 product1].
    destruct (ProductSerializer._process_tags st1 product1 _)
      as [st2 [e|[]]] eqn:Hp; intros [= <- <-].
    by apply (process_tags_links_by_name st1).
  - unfold ProductSerializer.update. rewrite Htags.
    destruct (Nested.update st instance _) as [st1 product1].
    destruct (ProductSerializer._process_tags st1 product1 _)
      as [st2 [e|[]]] eqn:Hp; intros [= <- <-].
    by apply (process_tags_links_by_name st1).
Qed.

Lemma saved_links_are_submitted_names_witness :
  let r := ProductSerializer.create Ex.stocked
             {| pd_name := Some (str "Second"); pd_option_set := None;
                pd_tag_set := None |} in
  1 ∈ tag_set_of r.1 2 ↔
  ∃ t, t ∈ tags r.1 ∧ tag_pk t = 1 ∧ tag_name t ∈ names_of [].
Proof.
  refine (saved_links_are_submitted_names Ex.stocked _
            {| pd_name := Some (str "Second"); pd_option_set := None;
               pd_tag_set := None |}
            {| product_pk := 2; product_name := str "Second" |} [] _ _ 1).
  - by intros td ?%elem_of_nil.
  - left. split; reflexivity.
Defined.

Section request_invariant.

Context (Inv : list Tag → Prop).
Context (Inv_create : ∀ ts n,
  Inv ts → named n ts = [] →
  Inv (ts ++ [{| tag_pk := fresh_pk (tag_pk <$> ts); tag_name := n |}])).

Lemma serializer_create_invariant st validated_data :
  Inv (tags st) → Inv (tags (ProductSerializer.create st validated_data).1).
Proof.
  intros HI. unfold ProductSerializer.create.
  destruct (Nested.create st _) as [st1 product] eqn:Hc.
  apply nested_create_frame in Hc as (Ht & _). rewrite <- Ht in HI.
  pose proof (process_tags_invariant Inv Inv_create st1 product
                (default [] (pd_tag_set validated_data)) HI) as HI'.
  by destruct (ProductSerializer._process_tags st1 product _) as [st2 [e|?]].
Qed.

Lemma serializer_update_invariant st instance validated_data :
  Inv (tags st) →
  Inv (tags (ProductSerializer.update st instance validated_data).1).
Proof.
  intros HI. unfold ProductSerializer.update.
  destruct (Nested.update st instance _) as [st1 product] eqn:Hu.
  apply nested_update_frame in Hu as (Ht & _). rewrite <- Ht in HI.
  destruct (pd_tag_set validated_data) as [tags_data|]; [|done].
  pose proof (process_tags_invariant Inv Inv_create st1 product tags_data HI)
    as HI'.
  by destruct (ProductSerializer._process_tags st1 product _) as [st2 [e|?]].
Qed.

Lemma request_invariant st pk data :
  Inv (tags st) →
  Inv (tags (ProductViewSet.create st data).1) ∧
  Inv (tags (ProductViewSet.partial_update st pk data).1).
Proof.
  intros HI. unfold ProductViewSet.create, ProductViewSet.partial_update.
  split.
  - destruct (ProductSerializer.run_validation data); [done|].
    by apply serializer_create_invariant.
  - destruct (ProductViewSet.get_object st pk); [|done].
    destruct (ProductSerializer.run_validation data); [done|].
    by apply serializer_update_invariant.
Qed.

End request_invariant.

(** X15. Unique tag names and unique tag keys are kept by every create and
    every partial update request, whatever the request carries and however it
    ends: the serializers never write a second Tag row for a name that has
    one, nor a row with a key that is in use. *)
Theorem requests_keep_tags_unique (st : Store) (pk : Z) (data : ProductData) :
  (NoDup (tag_name <$> tags st) →
     NoDup (tag_name <$> tags (ProductViewSet.create st data).1) ∧
     NoDup (tag_name <$> tags (ProductViewSet.partial_update st pk data).1)) ∧
  (NoDup (tag_pk <$> tags st) →
     NoDup (tag_pk <$> tags (ProductViewSet.create st data).1) ∧
     NoDup (tag_pk <$> tags (ProductViewSet.partial_update st pk data).1)).
Proof.
  split.
  - apply (request_invariant (λ ts, NoDup (tag_name <$> ts))).
    intros ts n Hu Hn. rewrite fmap_app. apply NoDup_app.
    split_and!; [done| |apply NoDup_singleton].
    intros m Hm [->|[]%elem_of_nil]%elem_of_cons. by apply named_nil in Hn.
  - apply (request_invariant (λ ts, NoDup (tag_pk <$> ts))).
    intros ts n Hu _. rewrite fmap_app. apply NoDup_app.
    split_and!; [done| |apply NoDup_singleton].
    intros k Hk [->|[]%elem_of_nil]%elem_of_cons.
    by apply fresh_pk_fresh in Hk.
Qed.

Lemma requests_keep_tags_unique_witness :
  NoDup (tag_name <$> tags (ProductViewSet.create Ex.stocked
    {| pd_name := Some (str "Second");
       pd_option_set := Some [Ex.opt "Option1" 1000];
       pd_tag_set := Some [Ex.by_name "NewTag"; Ex.by_name "Fresh"] |}).1) ∧
  NoDup (tag_name <$> tags (ProductViewSet.partial_update Ex.stocked 1
    {| pd_name := Some (str "Second");
       pd_option_set := Some [Ex.opt "Option1" 1000];
       pd_tag_set := Some [Ex.by_name "NewTag"; Ex.by_name "Fresh"] |}).1).
Proof.
  refine (proj1 (requests_keep_tags_unique Ex.stocked 1 _) _).
  vm_compute. repeat constructor; list_absent.
Defined.

(** * Requests as clients submit them *)

(** ** The internal form of tag entries *)

Lemma strip_idem (s : pystr) : strip (strip s) = strip s.
Proof.
  apply strip_fixed.
  - intros c r. apply strip_head.
  - intros r c. apply strip_last.
Qed.

Lemma tag_entry_internal entry entry' :
  TagSerializer.to_internal_value entry = inr entry' →
  ∃ name, td_name entry = Some name ∧ strip name ≠ [] ∧
    entry' = {| td_pk := None; td_name := Some (strip name) |}.
Proof.
  unfold TagSerializer.to_internal_value.
  destruct (td_name entry) as [name|]; [|done].
  destruct (decide (strip name = [])); [done|]. intros [= <-]. eauto.
Qed.

(** No entry in internal form bears a pk, and each bears a name that is not
    empty and has no white space around it. *)
Lemma tag_entries_internal entries entries' :
  TagSerializer.run_validation_many entries = inr entries' →
  ∀ entry', entry' ∈ entries' →
    ProductSerializer.given_pk entry' = None ∧
    ∃ name, td_name entry' = Some name ∧ name ≠ [] ∧ strip name = name.
Proof.
  revert entries'. induction entries as [|entry entries IH]; intros entries';
    simpl.
  { intros [= <-] entry' []%elem_of_nil. }
  destruct (TagSerializer.to_internal_value entry) as [r|e1] eqn:He; [done|].
  destruct (TagSerializer.run_validation_many entries) as [r|l]; [done|].
  intros [= <-] entry' [->|Hin]%elem_of_cons; [|by eapply IH].
  apply tag_entry_internal in He as (name & _ & Hne & ->).
  split; [done|]. exists (strip name). by rewrite strip_idem.
Qed.

Lemma body_internal partial body data :
  Http.to_internal_value partial body = inr data →
  pd_option_set data = pd_option_set body ∧
  ∀ entries, pd_tag_set data = Some entries →
    ∀ entry, entry ∈ entries → ProductSerializer.given_pk entry = None.
Proof.
  unfold Http.to_internal_value.
  destruct (Http.name_field partial (pd_name body)) as [r|name]; [done|].
  destruct (pd_tag_set body) as [entries0|].
  - destruct (TagSerializer.run_validation_many entries0) as [r|l] eqn:Hl;
      [done|]. intros [= <-]. split; [done|]. simpl.
    intros entries [= <-] entry Hin.
    by apply (tag_entries_internal _ _ Hl) in Hin as [? _].
  - intros [= <-]. by split.
Qed.

(** ** The lookup by key is out of reach *)

Lemma process_loop_failure_by_name tags_data :
  ∀ insts seen st st' e,
  (∀ td, td ∈ tags_data → ProductSerializer.given_pk td = None) →
  ProductSerializer.process_loop tags_data insts seen st = (st', inl e) →
  e = MultipleObjectsReturned.
Proof.
  induction tags_data as [|td rest IH]; intros insts seen st st' e Hno; simpl;
    [done|].
  assert (∀ td', td' ∈ rest → ProductSerializer.given_pk td' = None) as Hno'.
  { intros td' Hin. by apply Hno, list_elem_of_further. }
  rewrite (Hno td) by apply list_elem_of_here.
  destruct (td_name td) as [n|]; [|by apply IH].
  destruct (decide (n ∈ seen)); [by apply IH|].
  unfold TagObjects.get_or_create, TagObjects.create.
  destruct (filter _ (tags st)) as [|t [|??]]; simpl;
    [by apply IH..|by intros [= _ <-]].
Qed.

(** Whatever a client submits, no create and no partial update ends on the
    error that [_process_tags] raises for a pk that no Tag has. *)
Lemma request_never_misses_a_tag_pk st pk body st' e missing :
  Http.post st body = inr (st', inl e) ∨
  Http.patch st pk body = inr (st', inl e) →
  e ≠ ValidationError ["tag_set"%string] (TagDoesNotExist missing).
Proof.
  assert (∀ st1 product entries,
    (∀ entry, entry ∈ entries → ProductSerializer.given_pk entry = None) →
    ProductSerializer._process_tags st1 product entries = (st', inl e) →
    e = MultipleObjectsReturned) as Htags.
  { intros st1 product entries Hno. unfold ProductSerializer._process_tags.
    destruct (ProductSerializer.process_loop entries [] ∅ st1)
      as [st2 [e2|insts]] eqn:Hl; [|done].
    intros [= <- <-]. by eapply process_loop_failure_by_name. }
  unfold Http.post, Http.patch, ProductViewSet.create,
    ProductViewSet.partial_update.
  intros [Hpost|Hpatch].
  - destruct (Http.to_internal_value false body) as [r|data] eqn:Hb; [done|].
    apply body_internal in Hb as (_ & Hno).
    pose proof (serializer_validation_inv data) as Hinv.
    destruct (ProductSerializer.run_validation data) as [e0|vd].
    { destruct Hinv as (_ & _ & _ & ->). injection Hpost as _ <-. done. }
    destruct Hinv as (_ & Htag & _). revert Hpost.
    unfold ProductSerializer.create.
    destruct (Nested.create st _) as [st1 product].
    destruct (ProductSerializer._process_tags st1 product _)
      as [st2 [e2|[]]] eqn:Hp; intros [= <- <-].
    assert (∀ entry, entry ∈ default [] (pd_tag_set vd) →
              ProductSerializer.given_pk entry = None) as Hno'.
    { rewrite Htag. destruct (pd_tag_set data) as [entries|]; simpl; [eauto|].
      by intros ? ?%elem_of_nil. }
    by rewrite (Htags st1 product _ Hno' Hp).
  - destruct (ProductViewSet.get_object st pk) as [instance|];
      [|by injection Hpatch as _ <-].
    destruct (Http.to_internal_value true body) as [r|data] eqn:Hb; [done|].
    apply body_internal in Hb as (_ & Hno).
    pose proof (serializer_validation_inv data) as Hinv.
    destruct (ProductSerializer.run_validation data) as [e0|vd].
    { destruct Hinv as (_ & _ & _ & ->). injection Hpatch as _ <-. done. }
    destruct Hinv as (_ & Htag & _). revert Hpatch.
    unfold ProductSerializer.update.
    destruct (Nested.update st instance _) as [st1 product].
    rewrite Htag. destruct (pd_tag_set data) as [entries|]; [|done].
    destruct (ProductSerializer._process_tags st1 product entries)
      as [st2 [e2|[]]] eqn:Hp; intros [= <- <-].
    by rewrite (Htags st1 product entries (Hno entries eq_refl) Hp).
Qed.

(** ** A pk that no Tag has *)

(** C1. The code does not do what the claim says. The create request of the
    test for a tag pk that does not exist: pk 99999 is the key of no Tag, yet
    the request is not refused. The pk is not read, the entry is resolved by
    its name, a Tag named NonExistentTag is created and the new product is
    linked to it. *)
Theorem nonexistent_tag_pk_accepted :
  let body := {| pd_name := Some (str "InvalidTagProduct");
                 pd_option_set := Some [Ex.opt "Option1" 1000];
                 pd_tag_set := Some [Ex.by_pk 99999 "NonExistentTag"] |} in
  TagObjects.get Ex.base 99999 = None ∧
  ∃ st' product,
    Http.post Ex.base body = inr (st', inr product) ∧
    tags st'
      = tags Ex.base ++ [{| tag_pk := 3; tag_name := str "NonExistentTag" |}] ∧
    tag_set_of st' (product_pk product) = {[ 3 ]}.
Proof. split; [reflexivity|]. by eexists _, _. Qed.

(** C2. The code does not do what the claim says. A create and a partial
    update that refer to a tag pk that does not exist are not refused and
    nothing is undone: the create leaves a new Product row, its option and a
    new Tag; the update leaves the product with other tag links than it
    had. *)
Theorem missing_tag_pk_request_is_stored :
  let body := {| pd_name := Some (str "InvalidTagProduct");
                 pd_option_set := Some [Ex.opt "Option1" 1000];
                 pd_tag_set := Some [Ex.by_pk 99999 "NonExistentTag"] |} in
  let change := {| pd_name := None; pd_option_set := None;
                   pd_tag_set := Some [Ex.by_pk 99999 "Ghost"] |} in
  (∃ st' product,
     Http.post Ex.base body = inr (st', inr product) ∧
     products Ex.base = [] ∧
     products st' = [{| product_pk := 1;
                        product_name := str "InvalidTagProduct" |}] ∧
     options st' = [{| option_pk := 1; option_product := 1;
                       option_name := str "Option1";
                       option_price := 1000 |}] ∧
     List.length (tags st') = S (List.length (tags Ex.base))) ∧
  (∃ st' product,
     Http.patch Ex.stocked 1 change = inr (st', inr product) ∧
     tag_set_of Ex.stocked 1 = {[ 1; 3 ]} ∧
     tag_set_of st' 1 = {[ 4 ]} ∧
     TagObjects.get st' 4 = Some {| tag_pk := 4; tag_name := str "Ghost" |}).
Proof. split; by eexists _, _. Qed.

(** ** A pk that a Tag has *)

(** C9. The code does not do what the claim says. The entry bears the pk of
    the Tag ExistTag and another name: the request succeeds, the row of that
    Tag is as it was, but the product is not linked to it. A Tag with the
    submitted name is created and the product is linked to that one. *)
Theorem submitted_tag_pk_not_linked :
  let body := {| pd_name := Some (str "TestProduct");
                 pd_option_set := None;
                 pd_tag_set := Some [Ex.by_pk 1 "Renamed"] |} in
  TagObjects.get Ex.base 1 = Some Ex.ExistTag ∧
  ∃ st' product,
    Http.post Ex.base body = inr (st', inr product) ∧
    TagObjects.get st' 1 = Some Ex.ExistTag ∧
    (1 ∉ tag_set_of st' (product_pk product)) ∧
    tags st' = tags Ex.base ++ [{| tag_pk := 3; tag_name := str "Renamed" |}] ∧
    tag_set_of st' (product_pk product) = {[ 3 ]}.
Proof.
  split; [reflexivity|]. eexists _, _. split; [reflexivity|].
  split_and!; [reflexivity|set_absent|reflexivity..].
Qed.

(** ** Tag names *)

Lemma process_tags_same_name st product n :
  n ∉ tag_name <$> tags st →
  let t := {| tag_pk := fresh_pk (tag_pk <$> tags st); tag_name := n |} in
  ProductSerializer._process_tags st product
    [{| td_pk := None; td_name := Some n |};
     {| td_pk := None; td_name := Some n |}]
  = (tag_set_set (product_pk product) [t] (set_tags (tags st ++ [t]) st),
     inr ()).
Proof.
  intros Hfresh%named_fresh t. unfold ProductSerializer._process_tags. simpl.
  rewrite decide_False by set_solver.
  unfold TagObjects.get_or_create. fold (named n (tags st)).
  rewrite Hfresh. simpl. by rewrite decide_True by set_solver.
Qed.

Lemma process_tags_two_names st product n1 n2 :
  n1 ≠ n2 → n1 ∉ tag_name <$> tags st → n2 ∉ tag_name <$> tags st →
  let t1 := {| tag_pk := fresh_pk (tag_pk <$> tags st); tag_name := n1 |} in
  let t2 := {| tag_pk := fresh_pk (tag_pk <$> (tags st ++ [t1]));
               tag_name := n2 |} in
  tag_pk t1 ≠ tag_pk t2 ∧
  ProductSerializer._process_tags st product
    [{| td_pk := None; td_name := Some n1 |};
     {| td_pk := None; td_name := Some n2 |}]
  = (tag_set_set (product_pk product) [t1; t2]
       (set_tags (tags st ++ [t1; t2]) st),
     inr ()).
Proof.
  intros Hne H1 H2 t1 t2. split.
  { intros Heq. apply (fresh_pk_fresh (tag_pk <$> (tags st ++ [t1]))).
    change (tag_pk t2 ∈ tag_pk <$> (tags st ++ [t1])).
    rewrite <- Heq, fmap_app. set_solver. }
  assert (named n2 (tags st ++ [t1]) = []) as H2'.
  { apply named_fresh. rewrite fmap_app. set_solver. }
  apply named_fresh in H1.
  unfold ProductSerializer._process_tags. simpl.
  rewrite decide_False by set_solver.
  unfold TagObjects.get_or_create at 1. fold (named n1 (tags st)).
  rewrite H1. simpl. rewrite decide_False by set_solver.
  unfold TagObjects.get_or_create. simpl. fold t1.
  fold (named n2 (tags st ++ [t1])). rewrite H2'. simpl.
  unfold tag_set_set, set_tags, set_product_tags. simpl. fold t1. fold t2.
  by rewrite <- app_assoc.
Qed.

(** C10, amended. The name of a tag entry is stripped when the entry is
    read, as option names are; the reconciliation then compares and stores
    the names exactly as it gets them. Of two entries with names that are new
    to the Tag table: when the names are the same once stripped, one Tag row
    is created, it bears the stripped name, and the product is linked to it;
    when they still differ once stripped, both are processed and two rows
    with different keys are created, each bearing its stripped name. *)
Theorem tag_names_trimmed_then_exact
    (st : Store) (product : Product) (e1 e2 : TagData) (n1 n2 : pystr) :
  td_name e1 = Some n1 → td_name e2 = Some n2 →
  strip n1 ≠ [] → strip n2 ≠ [] →
  strip n1 ∉ tag_name <$> tags st → strip n2 ∉ tag_name <$> tags st →
  let t1 := {| tag_pk := fresh_pk (tag_pk <$> tags st);
               tag_name := strip n1 |} in
  let t2 := {| tag_pk := fresh_pk (tag_pk <$> (tags st ++ [t1]));
               tag_name := strip n2 |} in
  ∃ entries,
    TagSerializer.run_validation_many [e1; e2] = inr entries ∧
    if decide (strip n1 = strip n2)
    then ProductSerializer._process_tags st product entries
         = (tag_set_set (product_pk product) [t1]
              (set_tags (tags st ++ [t1]) st), inr ())
    else tag_pk t1 ≠ tag_pk t2 ∧
         ProductSerializer._process_tags st product entries
         = (tag_set_set (product_pk product) [t1; t2]
              (set_tags (tags st ++ [t1; t2]) st), inr ()).
Proof.
  intros He1 He2 Hn1 Hn2 Hnew1 Hnew2 t1 t2. eexists. split.
  { simpl. unfold TagSerializer.to_internal_value.
    rewrite He1, He2, !decide_False by done. reflexivity. }
  destruct (decide (strip n1 = strip n2)) as [Heq|Hne].
  - rewrite <- Heq. by apply process_tags_same_name.
  - by apply process_tags_two_names.
Qed.

Lemma tag_names_trimmed_then_exact_witness :
  let t := {| tag_pk := 3; tag_name := str "X" |} in
  ∃ entries,
    TagSerializer.run_validation_many [Ex.by_name " X "; Ex.by_name "X"]
      = inr entries ∧
    ProductSerializer._process_tags Ex.base Ex.TestProduct entries
      = (tag_set_set 1 [t] (set_tags (tags Ex.base ++ [t]) Ex.base), inr ()).
Proof.
  refine (tag_names_trimmed_then_exact Ex.base Ex.TestProduct
            (Ex.by_name " X ") (Ex.by_name "X") (str " X ") (str "X")
            _ _ _ _ _ _).
  - reflexivity.
  - reflexivity.
  - discriminate.
  - discriminate.
  - list_absent.
  - list_absent.
Defined.

(** C10 as stated fails: the two names of the request differ, and only in the
    white space around them; the request creates one Tag row, not two, and
    the row bears the name X, without the white space of the first entry. *)
Lemma surrounding_space_tag_names_merged :
  let body := {| pd_name := Some (str "TestProduct"); pd_option_set := None;
                 pd_tag_set := Some [Ex.by_name " X "; Ex.by_name "X"] |} in
  str " X " ≠ str "X" ∧ strip (str " X ") = strip (str "X") ∧
  ∃ st' product,
    Http.post Ex.base body = inr (st', inr product) ∧
    tags st' = tags Ex.base ++ [{| tag_pk := 3; tag_name := str "X" |}] ∧
    tag_set_of st' (product_pk product) = {[ 3 ]}.
Proof. split_and!; [discriminate|reflexivity|by eexists _, _]. Qed.
